(** * DAXPY benchmark (src/main.c): a shallow embedding in Rocq.

    Doubles are IEEE-754 binary64 numbers, given by the executable
    specification [spec_float] of the Standard Library with precision 53
    and maximal exponent 1024.  The heap is a total map from addresses to
    doubles, addresses counting doubles (so [x + i] is [&x[i]]).  An OpenMP
    [parallel for] loop is modelled by the set of orders in which its
    iterations may run: any permutation of the iterations handed out to the
    threads of the team. *)

From Stdlib Require Import ZArith Lia List Permutation Reals Lra.
From Stdlib Require Import Floats.SpecFloat.
Import ListNotations.
Open Scope Z_scope.

(** ** Doubles *)

Definition double := spec_float.
Definition dadd : double -> double -> double := SFadd 53 1024.
Definition dsub : double -> double -> double := SFsub 53 1024.
Definition dmul : double -> double -> double := SFmul 53 1024.
Definition ddiv : double -> double -> double := SFdiv 53 1024.
Definition dleb : double -> double -> bool := SFleb.

(** The C conversion [(double) k] of an integer: round to nearest even. *)
Definition of_int (k : Z) : double := binary_normalize 53 1024 k 0 false.

(** ** Memory *)

Definition mem := Z -> double.

Definition upd (m : mem) (a : Z) (v : double) : mem :=
  fun b => if Z.eqb b a then v else m b.

(** [zseq s l] is the list of integers [s, s+1, ..., s+l-1] ([[]] when
    [l <= 0]): the iteration space of [for (i = s; i < s + l; i++)]. *)
Definition zseq (s l : Z) : list Z :=
  map (fun k => s + Z.of_nat k) (seq 0 (Z.to_nat l)).

(** ** The DAXPY kernels (main.c, lines 61-84) *)

(** Loop body: [y[i] = y[i] + x[i]*a;] *)
Definition daxpy_body (x y : Z) (a : double) (m : mem) (i : Z) : mem :=
  upd m (y + i) (dadd (m (y + i)) (dmul (m (x + i)) a)).

(** Running the loop body for the iterations of [ord], in that order. *)
Definition run_daxpy (x y : Z) (a : double) (ord : list Z) (m : mem) : mem :=
  fold_left (daxpy_body x y a) ord m.

(** The sequential loop [for (int i = 0; i < n; i++)]. *)
Definition daxpy_seq (x y : Z) (a : double) (n : Z) (m : mem) : mem :=
  run_daxpy x y a (zseq 0 n) m.

(** [schedule(static)] without chunk size (libgomp): the [n] iterations are
    cut into [threads] contiguous blocks; with [q = n / threads] and
    [r = n mod threads], thread [id] gets [q + 1] iterations when [id < r]
    and [q] otherwise, the blocks following each other in thread order.
    A loop with [n <= 0] has no iteration. *)
Definition static_block (n threads id : Z) : list Z :=
  let cnt := Z.max 0 n in
  let q := cnt / threads in
  let r := cnt mod threads in
  if id <? r then zseq (id * (q + 1)) (q + 1) else zseq (id * q + r) q.

Definition static_blocks (n threads : Z) : list (list Z) :=
  map (static_block n threads) (zseq 0 threads).

(** [schedule(dynamic, c)]: the iterations are cut into chunks of [c]
    consecutive iterations (the last one possibly shorter), which the
    threads take from a shared counter one after the other. *)
Definition dynamic_chunks (c n : Z) : list (list Z) :=
  let cnt := Z.max 0 n in
  map (fun k => zseq (k * c) (Z.min c (cnt - k * c))) (zseq 0 ((cnt + c - 1) / c)).

(** An execution of a parallel loop whose threads run the given pieces of
    the iteration space: the iterations run in some order [ord] that
    rearranges all the pieces (this includes every interleaving of the
    threads and every assignment of dynamic chunks to threads). *)
Definition parallel_run (pieces : list (list Z)) (x y : Z) (a : double)
    (m m' : mem) : Prop :=
  exists ord, Permutation ord (concat pieces) /\ m' = run_daxpy x y a ord m.

(** [calculate_daxpy]: [#pragma omp parallel for num_threads(threads)
    schedule(static)]. *)
Definition calculate_daxpy (x y : Z) (a : double) (n threads : Z)
    (m m' : mem) : Prop :=
  parallel_run (static_blocks n threads) x y a m m'.

(** [calculate_daxpy_dynamic]: [schedule(dynamic, 100)]; the thread count
    does not change the chunks, only which thread runs them. *)
Definition calculate_daxpy_dynamic (x y : Z) (a : double) (n threads : Z)
    (m m' : mem) : Prop :=
  parallel_run (dynamic_chunks 100 n) x y a m m'.

(** ** Vector initialisation and the scalar (main.c, lines 32-48) *)

(** [rand()] is the C library's generator, a function of its hidden state
    [S]; the benchmark only stores what it returns. *)
(** glibc's [RAND_MAX]: [rand()] returns an [int] in [[0, RAND_MAX]]. *)
Definition RAND_MAX : Z := 2147483647.

(** The sample [rand] of the C standard, a linear congruential generator
    on a 32-bit state whose values lie in [[0, 32767]]: a concrete
    generator to run the code on. *)
Definition sample_rand (next : Z) : Z * Z :=
  let next' := (next * 1103515245 + 12345) mod 2 ^ 32 in
  ((next' / 65536) mod 32768, next').

Section Rand.
Context {S : Type} (rand : S -> Z * S).

(** Loop body of [initialize_array]: [arr[i] = rand();] *)
Definition init_body (arr : Z) (st : mem * S) (i : Z) : mem * S :=
  let '(m, s) := st in
  let '(v, s') := rand s in
  (upd m (arr + i) (of_int v), s').

Definition run_init (arr : Z) (ord : list Z) (st : mem * S) : mem * S :=
  fold_left (init_body arr) ord st.

(** [#pragma omp parallel for num_threads(threads)]: no schedule clause,
    so libgomp's default, the static schedule. *)
Definition initialize_array (arr n threads : Z) (st st' : mem * S) : Prop :=
  exists ord, Permutation ord (concat (static_blocks n threads))
              /\ st' = run_init arr ord st.

(** [initialize_scalar]: [return rand();] *)
Definition initialize_scalar (s : S) : double * S :=
  let '(v, s') := rand s in (of_int v, s').

(** The next [k] values [rand] returns from state [s], and the state after
    them. *)
Fixpoint draws (k : nat) (s : S) : list Z * S :=
  match k with
  | O => ([], s)
  | Datatypes.S k' =>
      let '(v, s1) := rand s in
      let '(vs, s2) := draws k' s1 in (v :: vs, s2)
  end.

(** The work of one pass of [main] that reads [n != -1] (lines 134-150), on
    memory and the generator state: [a = initialize_scalar()], then
    [initialize_array(x, ...)], [initialize_array(y, ...)], and the kernel
    chosen by [dyn_or_stc].  [x] and [y] are the blocks [malloc] returned. *)
Definition trial_compute (x y mode n threads : Z) (st st' : mem * S) : Prop :=
  let '(m, s) := st in
  let '(a, s1) := initialize_scalar s in
  exists st1 st2 m3,
    initialize_array x n threads (m, s1) st1
    /\ initialize_array y n threads st1 st2
    /\ (if mode =? 0 then calculate_daxpy x y a n threads (fst st2) m3
        else calculate_daxpy_dynamic x y a n threads (fst st2) m3)
    /\ st' = (m3, snd st2).
End Rand.

(** ** The team of a [num_threads(threads)] clause (libgomp)

    libgomp receives the clause's [int] as an [unsigned]: [0] asks for the
    default team ([default_team] threads, at least one), and a negative
    value reads as more than [2^31] threads, a team whose allocation fails,
    so the runtime ends the process ([gomp_fatal]) before any iteration.
    A positive count is taken to be a team the runtime can create.  An
    outcome [None] is that end of the process; [Some] is a call that
    returns. *)
Definition team_size (default_team threads : Z) : option Z :=
  if threads <? 0 then None
  else if threads =? 0 then Some default_team
  else Some threads.

Definition calculate_daxpy_omp (default_team x y : Z) (a : double) (n threads : Z)
    (m : mem) (r : option mem) : Prop :=
  match team_size default_team threads with
  | None => r = None
  | Some t => exists m', calculate_daxpy x y a n t m m' /\ r = Some m'
  end.

Definition calculate_daxpy_dynamic_omp (default_team x y : Z) (a : double)
    (n threads : Z) (m : mem) (r : option mem) : Prop :=
  match team_size default_team threads with
  | None => r = None
  | Some t => exists m', calculate_daxpy_dynamic x y a n t m m' /\ r = Some m'
  end.

Definition initialize_array_omp {S : Type} (rand : S -> Z * S)
    (default_team arr n threads : Z) (st : mem * S) (r : option (mem * S)) : Prop :=
  match team_size default_team threads with
  | None => r = None
  | Some t => exists st', initialize_array rand arr n t st st' /\ r = Some st'
  end.

(** ** Timing (main.c, lines 20-22 and 156-159) *)

Record timespec := mk_timespec { tv_sec : Z; tv_nsec : Z }.

(** [ts_to_ms]:
    [(((double) ts->tv_sec) * 1000.0) + (((double) ts->tv_nsec) / 1000000.0)] *)
Definition ts_to_ms (ts : timespec) : double :=
  dadd (dmul (of_int (tv_sec ts)) (of_int 1000))
       (ddiv (of_int (tv_nsec ts)) (of_int 1000000)).

(** [wall_time = finish_time - start_time] with
    [start_time = ts_to_ms(&start)] and [finish_time = ts_to_ms(&finish)]. *)
Definition wall_time (start finish : timespec) : double :=
  let start_time := ts_to_ms start in
  let finish_time := ts_to_ms finish in
  dsub finish_time start_time.

(** [time_spent = (double) (end - begin) / CLOCKS_PER_SEC] (line 156), with
    [begin] and [end] the values of [clock()]; POSIX fixes [CLOCKS_PER_SEC]
    at 1000000. *)
Definition CLOCKS_PER_SEC : Z := 1000000.

Definition proc_time (begin end_ : Z) : double :=
  ddiv (of_int (end_ - begin)) (of_int CLOCKS_PER_SEC).

(** The conversion as the spec words it: seconds times 1000 plus
    nanoseconds divided by 1,000,000, each timestamp converted on its own
    and the start subtracted from the finish. *)
Definition ms_as_specified (ts : timespec) : double :=
  let seconds := of_int (tv_sec ts) in
  let nanoseconds := of_int (tv_nsec ts) in
  dadd (dmul seconds (of_int 1000)) (ddiv nanoseconds (of_int 1000000)).

Definition elapsed_as_specified (start finish : timespec) : double :=
  dsub (ms_as_specified finish) (ms_as_specified start).

(** A timestamp as [clock_gettime] fills it: [0 <= tv_nsec < 10^9]. *)
Definition valid_timespec (ts : timespec) : Prop :=
  0 <= tv_nsec ts < 1000000000.

(** [finish] is not earlier than [start]. *)
Definition ts_le (start finish : timespec) : Prop :=
  tv_sec start < tv_sec finish
  \/ (tv_sec start = tv_sec finish /\ tv_nsec start <= tv_nsec finish).

(** [0 <= d] on doubles. *)
Definition nonneg (d : double) : bool := dleb (of_int 0) d.

(** ** Doubles read as reals

    The value of a double, and the rounding of a positive real in the
    normal range to the nearest double, ties to even. *)

(** Powers of two as reals. *)
Definition p2 (k : Z) : R := powerRZ 2 k.

(** Where a real [X] lies with respect to the integer [M], as a
    [location] says it. *)
Definition loc_desc (M : Z) (l : location) (X : R) : Prop :=
  match l with
  | loc_Exact => X = IZR M
  | loc_Inexact Lt => (IZR M < X < IZR M + / 2)%R
  | loc_Inexact Eq => X = (IZR M + / 2)%R
  | loc_Inexact Gt => (IZR M + / 2 < X < IZR M + 1)%R
  end.

(** A shift record describes [X]: its kept bits are [shr_m] and its round
    and sticky bits locate [X] as [loc_of_shr_record] says. *)
Definition rec_desc (mrs : shr_record) (X : R) : Prop :=
  0 <= shr_m mrs /\ loc_desc (shr_m mrs) (loc_of_shr_record mrs) X.

(** [N] is [X] rounded to the nearest integer, ties to even. *)
Definition rne_rel (X : R) (N : Z) : Prop :=
  (IZR N - / 2 < X < IZR N + / 2)%R
  \/ ((X = IZR N - / 2 \/ X = IZR N + / 2)%R /\ Z.even N = true).

(** The real value of a double; [0] for zeros, infinities and NaN. *)
Definition val (f : double) : R :=
  match f with
  | S754_finite s m e => ((if s then -1 else 1) * IZR (Zpos m) * p2 e)%R
  | _ => 0%R
  end.

(** [f] is the double nearest to the positive real [x] (ties to even), [x]
    being in the normal range: with [2^(k-1) <= x < 2^k], [f] is [N * 2^(k-53)]
    where [N] rounds [x / 2^(k-53)]. *)
Definition rounds_to (x : R) (f : double) : Prop :=
  exists k N M E,
    (p2 (k - 1) <= x < p2 k)%R /\ -1074 <= k - 53 /\ k - 53 < 971
    /\ rne_rel (x / p2 (k - 53)) N
    /\ f = S754_finite false M E
    /\ (IZR (Zpos M) * p2 E = IZR N * p2 (k - 53))%R
    /\ Zpos (digits2_pos M) = 53.

(** The reals the timing code meets lie well inside the normal range. *)
Definition in_range (x : R) : Prop := (p2 (-1000) <= x < p2 900)%R.

(** [+0] or a positive finite double. *)
Definition pos_or_zero (f : double) : Prop :=
  f = S754_zero false \/ exists m e, f = S754_finite false m e.

(** [f] is [0] for [x = 0] and the rounding of [x] for [x > 0]. *)
Definition approx (x : R) (f : double) : Prop :=
  (x = 0%R /\ f = S754_zero false) \/ ((0 < x)%R /\ rounds_to x f).

(** The two terms of [ts_to_ms]: [(double) tv_sec * 1000.0] and
    [(double) tv_nsec / 1000000.0]. *)
Definition sec_ms (s : Z) : double := dmul (of_int s) (of_int 1000).

Definition nsec_ms (ns : Z) : double := ddiv (of_int ns) (of_int 1000000).

(** ** The trial loop ([main], lines 116-170) *)

Inductive buffer := BufX | BufY.

Inductive sched := Static | Dynamic.

(** What [main] does, in the order it does it. *)
Inductive event :=
| EvPromptMode                    (* printf("Run in static or dynamic mode? ...") *)
| EvScanMode (v : Z)              (* scanf("%d", &dyn_or_stc) *)
| EvPromptThreads                 (* printf("Please input the number of threads: ") *)
| EvScanThreads (v : Z)           (* scanf("%d", &thread_count) *)
| EvPromptSize                    (* printf("Please input the size ...") *)
| EvScanSize (v : Z)              (* scanf("%d", &n) *)
| EvScalar                        (* a = initialize_scalar() *)
| EvAlloc (b : buffer) (n : Z)    (* malloc(sizeof(double) * n) *)
| EvInit (b : buffer) (n threads : Z) (* initialize_array(b, n, thread_count) *)
| EvClockBegin                    (* begin = clock() *)
| EvWallStart                     (* clock_gettime(CLOCK, &start) *)
| EvKernel (s : sched) (n threads : Z) (* calculate_daxpy / _dynamic *)
| EvClockEnd                      (* end = clock() *)
| EvWallFinish                    (* clock_gettime(CLOCK, &finish) *)
| EvReport                        (* print_daxpy(...) *)
| EvFree (b : buffer)             (* free(b) *)
| EvGoodbye.                      (* printf("Goodbye!\n") *)

(** One pass of the [while (n != -1)] loop, given the three integers the
    [scanf] calls read. *)
Definition trial_events (mode threads n : Z) : list event :=
  [EvPromptMode; EvScanMode mode; EvPromptThreads; EvScanThreads threads;
   EvPromptSize; EvScanSize n]
  ++ (if negb (n =? -1) then
        [EvScalar; EvAlloc BufX n; EvAlloc BufY n;
         EvInit BufX n threads; EvInit BufY n threads;
         EvClockBegin; EvWallStart;
         EvKernel (if mode =? 0 then Static else Dynamic) n threads;
         EvClockEnd; EvWallFinish; EvReport; EvFree BufX; EvFree BufY]
      else []).

(** The session, on the integers read by successive passes (three per pass).
    [n] starts at [1], so the loop runs at least once; it stops after the pass
    that reads [-1] as the vector size, prints the farewell line and returns
    [0].  When the input runs out first, the session has not ended ([None]). *)
Fixpoint main_loop (inp : list (Z * Z * Z)) : list event * option Z :=
  match inp with
  | [] => ([], None)
  | (mode, threads, n) :: rest =>
      if negb (n =? -1) then
        let '(tr, code) := main_loop rest in (trial_events mode threads n ++ tr, code)
      else (trial_events mode threads n ++ [EvGoodbye], Some 0)
  end.

(** The vector length a step of a trial uses, if any. *)
Definition step_size (e : event) : option Z :=
  match e with
  | EvAlloc _ k | EvInit _ k _ | EvKernel _ k _ => Some k
  | _ => None
  end.

(** The events of passes that do not end the session. *)
Definition trials_events (inp : list (Z * Z * Z)) : list event :=
  concat (map (fun '(mode, threads, n) => trial_events mode threads n) inp).

(** Whether some pass of the input reads [-1] as the vector length. *)
Definition has_sentinel (inp : list (Z * Z * Z)) : bool :=
  existsb (fun '(_, _, n) => n =? -1) inp.

(** How many events of a trace satisfy [p]. *)
Definition count_ev (p : event -> bool) (tr : list event) : nat :=
  length (filter p tr).

Definition is_alloc (b : buffer) (e : event) : bool :=
  match e, b with
  | EvAlloc BufX _, BufX | EvAlloc BufY _, BufY => true
  | _, _ => false
  end.

Definition is_free (b : buffer) (e : event) : bool :=
  match e, b with
  | EvFree BufX, BufX | EvFree BufY, BufY => true
  | _, _ => false
  end.

Definition is_kernel (e : event) : bool :=
  match e with EvKernel _ _ _ => true | _ => false end.

(** The number of passes of the input that run a trial: those before the
    first one reading [-1]. *)
Fixpoint passes_run (inp : list (Z * Z * Z)) : nat :=
  match inp with
  | [] => O
  | (_, _, n) :: rest => if n =? -1 then O else S (passes_run rest)
  end.

(** ** Iteration spaces *)
Lemma zseq_length (s l : Z) : length (zseq s l) = Z.to_nat l.
Proof. unfold zseq. now rewrite length_map, length_seq. Qed.

Lemma zseq_succ (s l : Z) : 0 <= l -> zseq s (l + 1) = zseq s l ++ [s + l].
Proof.
  intros Hl. unfold zseq.
  replace (Z.to_nat (l + 1)) with (S (Z.to_nat l)) by lia.
  rewrite seq_S, map_app. simpl. do 2 f_equal. lia.
Qed.

Lemma zseq_app (s l1 l2 : Z) :
  0 <= l1 -> 0 <= l2 -> zseq s (l1 + l2) = zseq s l1 ++ zseq (s + l1) l2.
Proof.
  intros H1 H2. pattern l2. apply natlike_ind; [| |exact H2].
  - rewrite Z.add_0_r. unfold zseq at 3. simpl. now rewrite app_nil_r.
  - intros k Hk IH. replace (l1 + Z.succ k) with (l1 + k + 1) by lia.
    replace (Z.succ k) with (k + 1) by lia.
    rewrite (zseq_succ s (l1 + k)) by lia. rewrite IH.
    rewrite (zseq_succ (s + l1) k) by lia. rewrite <- app_assoc.
    do 3 f_equal. lia.
Qed.

Lemma zseq_split (s a b : Z) :
  0 <= a <= b -> zseq s b = zseq s a ++ zseq (s + a) (b - a).
Proof.
  intros H. rewrite <- zseq_app by lia. f_equal. lia.
Qed.

Lemma in_zseq (s l i : Z) : In i (zseq s l) <-> s <= i < s + l.
Proof.
  unfold zseq. rewrite in_map_iff. split.
  - intros [k [<- Hk]]. apply in_seq in Hk. lia.
  - intros Hi. exists (Z.to_nat (i - s)). split; [lia|]. apply in_seq. lia.
Qed.

Lemma NoDup_zseq (s l : Z) : NoDup (zseq s l).
Proof.
  unfold zseq. apply NoDup_map_NoDup_ForallPairs; [| apply seq_NoDup].
  intros a b _ _ H. lia.
Qed.

(** The blocks of the static schedule, in thread order, cover [0, n)
    exactly once.  Block [id] starts at [id * q + min id r]. *)
Lemma static_block_eq (n t id : Z) :
  1 <= t -> 0 <= id ->
  let cnt := Z.max 0 n in
  let q := cnt / t in let r := cnt mod t in
  static_block n t id
  = zseq (id * q + Z.min id r)
         ((id + 1) * q + Z.min (id + 1) r - (id * q + Z.min id r)).
Proof.
  intros Ht Hid cnt q r. unfold static_block. fold cnt q r.
  destruct (Z.ltb_spec id r).
  - f_equal; lia.
  - f_equal; lia.
Qed.

Lemma static_blocks_prefix (n t k : Z) :
  1 <= t -> 0 <= k ->
  let cnt := Z.max 0 n in
  let q := cnt / t in let r := cnt mod t in
  concat (map (static_block n t) (zseq 0 k)) = zseq 0 (k * q + Z.min k r).
Proof.
  intros Ht Hk cnt q r.
  assert (Hq : 0 <= q) by (unfold q, cnt; apply Z.div_pos; lia).
  assert (Hr : 0 <= r < t) by (unfold r; apply Z.mod_pos_bound; lia).
  pattern k. apply natlike_ind; [| |exact Hk].
  - rewrite Z.mul_0_l, Z.min_l, Z.add_0_l by lia. reflexivity.
  - intros j Hj IH. replace (Z.succ j) with (j + 1) by lia.
    rewrite zseq_succ by lia. rewrite map_app, concat_app, IH. simpl.
    rewrite app_nil_r, (static_block_eq n t j) by lia. fold cnt q r.
    replace (0 + j) with j by lia.
    assert (0 <= j * q) by (apply Z.mul_nonneg_nonneg; lia).
    rewrite (zseq_split 0 (j * q + Z.min j r) ((j + 1) * q + Z.min (j + 1) r))
      by lia. f_equal; f_equal; lia.
Qed.

Lemma concat_static_blocks (n t : Z) :
  1 <= t -> concat (static_blocks n t) = zseq 0 (Z.max 0 n).
Proof.
  intros Ht. unfold static_blocks. rewrite static_blocks_prefix by lia.
  f_equal. set (cnt := Z.max 0 n).
  assert (Hr : 0 <= cnt mod t < t) by (apply Z.mod_pos_bound; lia).
  rewrite Z.min_r by lia. pose proof (Z.div_mod cnt t ltac:(lia)). nia.
Qed.

(** The chunks of the dynamic schedule, in order, cover [0, n) exactly once. *)
Lemma dynamic_chunks_prefix (c n k : Z) :
  1 <= c -> 0 <= k -> k <= (Z.max 0 n + c - 1) / c ->
  concat (map (fun k => zseq (k * c) (Z.min c (Z.max 0 n - k * c))) (zseq 0 k))
  = zseq 0 (Z.min (k * c) (Z.max 0 n)).
Proof.
  intros Hc Hk. set (cnt := Z.max 0 n).
  pattern k. apply natlike_ind; [| |exact Hk].
  - intros _. rewrite Z.mul_0_l, Z.min_l by lia. reflexivity.
  - intros j Hj IH HK. replace (Z.succ j) with (j + 1) in * by lia.
    assert (Hb : c * ((cnt + c - 1) / c) <= cnt + c - 1)
      by (apply Z.mul_div_le; lia).
    assert (Hjc : j * c < cnt) by nia.
    rewrite zseq_succ by lia. rewrite map_app, concat_app, IH by lia. simpl.
    rewrite app_nil_r. replace (0 + j) with j by lia.
    replace (Z.min (j * c) cnt) with (j * c) by lia.
    rewrite (zseq_split 0 (j * c) (Z.min ((j + 1) * c) cnt)) by lia. f_equal; f_equal; lia.
Qed.

Lemma concat_dynamic_chunks (c n : Z) :
  1 <= c -> concat (dynamic_chunks c n) = zseq 0 (Z.max 0 n).
Proof.
  intros Hc. unfold dynamic_chunks.
  rewrite dynamic_chunks_prefix by (try apply Z.div_pos; lia).
  f_equal. set (cnt := Z.max 0 n).
  assert (Hb : cnt + c - 1 - c < c * ((cnt + c - 1) / c)).
  { assert (H := Z.mod_pos_bound (cnt + c - 1) c ltac:(lia)).
    rewrite (Z.div_mod (cnt + c - 1) c) at 1 by lia. lia. }
  lia.
Qed.

(** ** Effect of a run of the loop body *)

Section RunDaxpy.
Variables (x y : Z) (a : double).

(** Running the iterations of a duplicate-free [ord] whose reads of [x]
    never hit a cell of [y] it writes: each [y[i]] with [i] in [ord] is
    updated once from its old value and [x[i]], every other cell is
    untouched. *)
Lemma run_daxpy_frame (ord : list Z) (m : mem) (b : Z) :
  (forall i, In i ord -> b <> y + i) -> run_daxpy x y a ord m b = m b.
Proof.
  revert m. induction ord as [|i ord IH]; intros m Hb; [reflexivity|].
  unfold run_daxpy. simpl. fold (run_daxpy x y a ord (daxpy_body x y a m i)).
  rewrite IH by (intros j Hj; apply Hb; now right).
  unfold daxpy_body, upd. destruct (Z.eqb_spec b (y + i)); [|reflexivity].
  exfalso. apply (Hb i); [now left | exact e].
Qed.

Lemma run_daxpy_updates (ord : list Z) (m : mem) :
  NoDup ord ->
  (forall i j, In i ord -> In j ord -> x + i <> y + j) ->
  forall i, In i ord ->
    run_daxpy x y a ord m (y + i) = dadd (m (y + i)) (dmul (m (x + i)) a).
Proof.
  revert m. induction ord as [|i0 ord IH]; intros m Hnd Hxy i Hi; [destruct Hi|].
  inversion Hnd as [|? ? Hni Hnd']; subst.
  unfold run_daxpy. simpl. fold (run_daxpy x y a ord (daxpy_body x y a m i0)).
  destruct Hi as [<- | Hi].
  - rewrite run_daxpy_frame.
    + unfold daxpy_body, upd. now rewrite Z.eqb_refl.
    + intros j Hj Heq. apply Hni. replace i0 with j by lia. exact Hj.
  - rewrite IH; [| exact Hnd' | intros; apply Hxy; now right | exact Hi].
    unfold daxpy_body, upd.
    destruct (Z.eqb_spec (y + i) (y + i0)).
    + exfalso. apply Hni. replace i0 with i by lia. exact Hi.
    + destruct (Z.eqb_spec (x + i) (y + i0)); [|reflexivity].
      exfalso. apply (Hxy i i0); [now right | now left | exact e].
Qed.
End RunDaxpy.

(** What DAXPY computes, as the spec states it: [y[i] = old y[i] + x[i]*a]
    for [0 <= i < n], everything else unchanged. *)
Definition daxpy_result (x y : Z) (a : double) (n : Z) (m : mem) : mem :=
  fun b => if ((y <=? b) && (b <? y + n))%bool
           then dadd (m b) (dmul (m (x + (b - y))) a) else m b.

(** Any run of all the iterations of [[0, n)], in any order, gives
    [daxpy_result] when [x[0..n)] and [y[0..n)] are separate buffers. *)
Lemma run_perm_daxpy_result (x y : Z) (a : double) (n : Z) (ord : list Z)
    (m : mem) :
  x + n <= y \/ y + n <= x ->
  Permutation ord (zseq 0 (Z.max 0 n)) ->
  forall b, run_daxpy x y a ord m b = daxpy_result x y a n m b.
Proof.
  intros Hsep Hp b.
  assert (Hin : forall i, In i ord <-> 0 <= i < n).
  { intros i. split; intros H.
    - apply (Permutation_in _ Hp), in_zseq in H. lia.
    - apply (Permutation_in _ (Permutation_sym Hp)), in_zseq. lia. }
  unfold daxpy_result.
  destruct (Z.leb_spec y b), (Z.ltb_spec b (y + n)); simpl.
  - replace b with (y + (b - y)) by lia.
    rewrite run_daxpy_updates.
    + f_equal. f_equal. f_equal. lia.
    + apply (Permutation_NoDup (Permutation_sym Hp)), NoDup_zseq.
    + intros i j Hi Hj. apply Hin in Hi, Hj. lia.
    + apply Hin. lia.
  - apply run_daxpy_frame. intros i Hi. apply Hin in Hi. lia.
  - apply run_daxpy_frame. intros i Hi. apply Hin in Hi. lia.
  - apply run_daxpy_frame. intros i Hi. apply Hin in Hi. lia.
Qed.

(** ** Both kernels compute [daxpy_result] *)
Lemma zseq_max0 (s n : Z) : zseq s (Z.max 0 n) = zseq s n.
Proof. unfold zseq. f_equal. f_equal. lia. Qed.

Lemma daxpy_seq_result (x y : Z) (a : double) (n : Z) (m : mem) :
  x + n <= y \/ y + n <= x ->
  forall b, daxpy_seq x y a n m b = daxpy_result x y a n m b.
Proof.
  intros Hsep. apply run_perm_daxpy_result; [exact Hsep|].
  rewrite zseq_max0. apply Permutation_refl.
Qed.

Lemma calculate_daxpy_result (x y : Z) (a : double) (n t : Z) (m m' : mem) :
  1 <= t -> x + n <= y \/ y + n <= x ->
  calculate_daxpy x y a n t m m' ->
  forall b, m' b = daxpy_result x y a n m b.
Proof.
  intros Ht Hsep [ord [Hp ->]]. rewrite concat_static_blocks in Hp by exact Ht.
  now apply run_perm_daxpy_result.
Qed.

Lemma calculate_daxpy_dynamic_result (x y : Z) (a : double) (n t : Z)
    (m m' : mem) :
  x + n <= y \/ y + n <= x ->
  calculate_daxpy_dynamic x y a n t m m' ->
  forall b, m' b = daxpy_result x y a n m b.
Proof.
  intros Hsep [ord [Hp ->]]. rewrite concat_dynamic_chunks in Hp by lia.
  now apply run_perm_daxpy_result.
Qed.

(** The iterations handed out by either schedule lie in [[0, n)], whatever
    the thread count. *)
Lemma static_blocks_in (n t i : Z) :
  In i (concat (static_blocks n t)) -> 0 <= i < n.
Proof.
  destruct (Z.le_gt_cases 1 t) as [Ht|Ht].
  - rewrite concat_static_blocks by exact Ht. intros H. apply in_zseq in H. lia.
  - unfold static_blocks, zseq. replace (Z.to_nat t) with 0%nat by lia.
    simpl. tauto.
Qed.

Lemma dynamic_chunks_in (n i : Z) :
  In i (concat (dynamic_chunks 100 n)) -> 0 <= i < n.
Proof.
  rewrite concat_dynamic_chunks by lia. intros H. apply in_zseq in H. lia.
Qed.

Lemma parallel_run_frame (pieces : list (list Z)) (x y : Z) (a : double)
    (n : Z) (m m' : mem) :
  (forall i, In i (concat pieces) -> 0 <= i < n) ->
  parallel_run pieces x y a m m' ->
  forall b, ~ (y <= b < y + n) -> m' b = m b.
Proof.
  intros Hr [ord [Hp ->]] b Hb. apply run_daxpy_frame.
  intros i Hi. apply (Permutation_in _ Hp), Hr in Hi. lia.
Qed.

(** Threads taking chunks in the reverse order. *)
Lemma Permutation_concat_rev {A : Type} (l : list (list A)) :
  Permutation (concat (rev l)) (concat l).
Proof.
  induction l as [|c l IH]; [reflexivity|].
  simpl. rewrite concat_app. simpl. rewrite app_nil_r.
  eapply Permutation_trans; [apply Permutation_app_comm|].
  now apply Permutation_app_head.
Qed.

Lemma concat_static_blocks_nonpos (n t : Z) :
  n <= 0 -> concat (static_blocks n t) = [].
Proof.
  intros Hn. destruct (Z.le_gt_cases 1 t) as [Ht|Ht].
  - rewrite concat_static_blocks by exact Ht. unfold zseq.
    now replace (Z.to_nat (Z.max 0 n)) with 0%nat by lia.
  - unfold static_blocks, zseq. now replace (Z.to_nat t) with 0%nat by lia.
Qed.

Lemma concat_dynamic_chunks_nonpos (n : Z) :
  n <= 0 -> concat (dynamic_chunks 100 n) = [].
Proof.
  intros Hn. rewrite concat_dynamic_chunks by lia. unfold zseq.
  now replace (Z.to_nat (Z.max 0 n)) with 0%nat by lia.
Qed.

(** ** Claims about the kernels *)

(** ** Rounding lemmas for binary64 *)
Lemma p2_pos (k : Z) : (0 < p2 k)%R.
Proof. apply powerRZ_lt. lra. Qed.

Lemma p2_add (a b : Z) : p2 (a + b) = (p2 a * p2 b)%R.
Proof. apply powerRZ_add. lra. Qed.

Lemma p2_0 : p2 0 = 1%R.
Proof. reflexivity. Qed.

Lemma p2_1 : p2 1 = 2%R.
Proof. unfold p2. simpl. lra. Qed.

Lemma p2_IZR (k : Z) : 0 <= k -> IZR (2 ^ k) = p2 k.
Proof.
  intros Hk. pattern k. apply natlike_ind; [reflexivity| |exact Hk].
  intros j Hj IH. rewrite Z.pow_succ_r by exact Hj. rewrite mult_IZR, IH.
  unfold Z.succ. rewrite p2_add, p2_1. lra.
Qed.

Lemma p2_le (a b : Z) : a <= b -> (p2 a <= p2 b)%R.
Proof.
  intros H. replace b with (a + (b - a)) by lia. rewrite p2_add.
  rewrite <- (Rmult_1_r (p2 a)) at 1. apply Rmult_le_compat_l; [left; apply p2_pos|].
  rewrite <- p2_IZR by lia. apply IZR_le.
  assert (0 < 2 ^ (b - a)) by (apply Z.pow_pos_nonneg; lia). lia.
Qed.

Lemma IZR_xO (p : positive) : IZR (Zpos (xO p)) = (2 * IZR (Zpos p))%R.
Proof. rewrite Pos2Z.inj_xO, mult_IZR. reflexivity. Qed.

Lemma IZR_xI (p : positive) : IZR (Zpos (xI p)) = (2 * IZR (Zpos p) + 1)%R.
Proof. rewrite Pos2Z.inj_xI, plus_IZR, mult_IZR. reflexivity. Qed.

Lemma shr_1_desc (mrs : shr_record) (X : R) :
  rec_desc mrs X -> rec_desc (shr_1 mrs) (X / 2).
Proof.
  destruct mrs as [m r s]. unfold rec_desc. simpl.
  intros [Hm Hd].
  destruct m as [|p|p]; [| |lia].
  - destruct r, s; simpl in *; split; try lia; lra.
  - assert (Hp : (0 < IZR (Zpos p))%R) by (apply IZR_lt; lia).
    destruct p as [p|p|]; destruct r, s; simpl in *;
      try rewrite IZR_xI in *; try rewrite IZR_xO in *;
      (split; [lia|]); lra.
Qed.

Lemma rec_desc_eq (mrs : shr_record) (X Y : R) : X = Y -> rec_desc mrs X -> rec_desc mrs Y.
Proof. now intros ->. Qed.

Lemma iter_shr_1_desc (p : positive) (mrs : shr_record) (X : R) :
  rec_desc mrs X -> rec_desc (iter_pos shr_1 p mrs) (X / p2 (Zpos p)).
Proof.
  revert mrs X. induction p as [p IH|p IH|]; intros mrs X H; cbn [iter_pos].
  - apply (rec_desc_eq _ (X / 2 / p2 (Zpos p) / p2 (Zpos p))).
    + rewrite Pos2Z.inj_xI. replace (2 * Zpos p + 1) with (1 + (Zpos p + Zpos p)) by lia.
      rewrite !p2_add, p2_1. pose proof (p2_pos (Zpos p)). field. lra.
    + apply IH, IH, shr_1_desc, H.
  - apply (rec_desc_eq _ (X / p2 (Zpos p) / p2 (Zpos p))).
    + rewrite Pos2Z.inj_xO. replace (2 * Zpos p) with (Zpos p + Zpos p) by lia.
      rewrite !p2_add. pose proof (p2_pos (Zpos p)). field. lra.
    + apply IH, IH, H.
  - apply (rec_desc_eq _ (X / 2)).
    + rewrite p2_1. reflexivity.
    + apply shr_1_desc, H.
Qed.

Lemma shr_record_of_loc_desc (m : Z) (l : location) (X : R) :
  0 <= m -> loc_desc m l X -> rec_desc (shr_record_of_loc m l) X.
Proof.
  intros Hm H. destruct l as [|[]]; unfold rec_desc; simpl; auto.
Qed.

(** [shr mrs e n] moves [n >= 0] bits out: the value, [X * 2^e], is kept. *)
Lemma shr_desc (mrs : shr_record) (e n : Z) (X : R) :
  0 <= n -> rec_desc mrs X ->
  rec_desc (fst (shr mrs e n)) (X / p2 n) /\ snd (shr mrs e n) = e + n.
Proof.
  intros Hn H. destruct n as [|p|p]; [| |lia].
  - split; [|cbn; lia]. apply (rec_desc_eq _ X); [rewrite p2_0; field | exact H].
  - split; [apply iter_shr_1_desc, H | reflexivity].
Qed.

(** [round_nearest_even] rounds to the nearest integer, ties to even. *)
Lemma round_nearest_even_rne (M : Z) (l : location) (X : R) :
  loc_desc M l X -> rne_rel X (round_nearest_even M l).
Proof.
  unfold rne_rel. destruct l as [|[]]; simpl; intros H.
  - left. lra.
  - destruct (Z.even M) eqn:E.
    + right. split; [lra | exact E].
    + right. split.
      * left. rewrite plus_IZR. lra.
      * rewrite Z.even_add. rewrite E. reflexivity.
  - left. lra.
  - left. rewrite plus_IZR. lra.
Qed.

Lemma rne_int (K : Z) : rne_rel (IZR K) K.
Proof. left. lra. Qed.

Lemma rne_mono (X1 X2 : R) (N1 N2 : Z) :
  rne_rel X1 N1 -> rne_rel X2 N2 -> (X1 <= X2)%R -> N1 <= N2.
Proof.
  intros H1 H2 Hle. destruct (Z.le_gt_cases N1 N2) as [|Hgt]; [assumption|].
  exfalso. assert (Hr : (IZR N2 + 1 <= IZR N1)%R).
  { rewrite <- plus_IZR. apply IZR_le. lia. }
  destruct H1 as [H1 | [H1 E1]], H2 as [H2 | [H2 E2]]; try lra.
  assert (Heq : (IZR N1 = IZR N2 + 1)%R) by lra.
  rewrite <- plus_IZR in Heq. apply eq_IZR in Heq. subst N1.
  rewrite Z.even_add in E1. rewrite E2 in E1. discriminate.
Qed.

Lemma rne_unique_int (K N : Z) : rne_rel (IZR K) N -> N = K.
Proof.
  intros H. apply Z.le_antisymm.
  - apply (rne_mono _ _ _ _ H (rne_int K)). lra.
  - apply (rne_mono _ _ _ _ (rne_int K) H). lra.
Qed.

Lemma digits2_pos_bounds (p : positive) :
  2 ^ (Zpos (digits2_pos p) - 1) <= Zpos p < 2 ^ Zpos (digits2_pos p).
Proof.
  induction p as [p IH|p IH|]; cbn [digits2_pos]; try (simpl; lia);
    rewrite Pos2Z.inj_succ; unfold Z.succ;
    replace (Zpos (digits2_pos p) + 1 - 1) with (Zpos (digits2_pos p) - 1 + 1) by lia;
    rewrite !Z.pow_add_r by lia; lia.
Qed.

(** The real value of a double (the value of zeros, infinities and NaN is
    not used). *)
Lemma loc_desc_bounds (M : Z) (l : location) (X : R) :
  loc_desc M l X -> (IZR M <= X < IZR M + 1)%R.
Proof. destruct l as [|[]]; simpl; lra. Qed.

Lemma digits2_pos_unique (p : positive) (k : Z) :
  2 ^ (k - 1) <= Zpos p < 2 ^ k -> 1 <= k -> Zpos (digits2_pos p) = k.
Proof.
  intros [H1 H2] Hk. pose proof (digits2_pos_bounds p) as [B1 B2].
  set (d := Zpos (digits2_pos p)) in *.
  assert (Hd : 1 <= d) by (unfold d; lia).
  destruct (Z.lt_total d k) as [Hlt | [Heq | Hgt]]; [exfalso | exact Heq | exfalso].
  - assert (2 ^ d <= 2 ^ (k - 1)) by (apply Z.pow_le_mono_r; lia). lia.
  - assert (2 ^ k <= 2 ^ (d - 1)) by (apply Z.pow_le_mono_r; lia). lia.
Qed.

Lemma div_p2_le (X Y : R) (k : Z) : (X <= Y)%R -> (X / p2 k <= Y / p2 k)%R.
Proof.
  intros H. pose proof (p2_pos k). unfold Rdiv.
  apply Rmult_le_compat_r; [left; apply Rinv_0_lt_compat; lra | exact H].
Qed.

Lemma div_p2_lt (X Y : R) (k : Z) : (X < Y)%R -> (X / p2 k < Y / p2 k)%R.
Proof.
  intros H. pose proof (p2_pos k). unfold Rdiv.
  apply Rmult_lt_compat_r; [apply Rinv_0_lt_compat; lra | exact H].
Qed.

Lemma p2_div (a b : Z) : (p2 a / p2 b = p2 (a - b))%R.
Proof.
  replace a with ((a - b) + b) at 1 by lia. rewrite p2_add.
  pose proof (p2_pos b). field. lra.
Qed.

(** Rounding a positive mantissa [m] with at least 53 bits, at exponent [e],
    in the normal range: the result is [N * 2^(d + e - 53)] where [d] is the
    number of bits of [m] and [N] is the scaled exact value rounded to the
    nearest integer, ties to even. *)
Lemma round_aux_spec (mp : positive) (e : Z) (l : location) (X : R) :
  loc_desc (Zpos mp) l X ->
  53 <= Zpos (digits2_pos mp) ->
  -1074 <= Zpos (digits2_pos mp) + e - 53 ->
  Zpos (digits2_pos mp) + e - 53 < 971 ->
  exists N M E,
    binary_round_aux 53 1024 false (Zpos mp) e l = S754_finite false M E
    /\ (IZR (Zpos M) * p2 E = IZR N * p2 (Zpos (digits2_pos mp) + e - 53))%R
    /\ rne_rel (X / p2 (Zpos (digits2_pos mp) - 53)) N
    /\ 2 ^ 52 <= N <= 2 ^ 53
    /\ (N < 2 ^ 53 -> Zpos M = N /\ E = Zpos (digits2_pos mp) + e - 53)
    /\ Zpos (digits2_pos M) = 53.
Proof.
  intros H Hd Hlo Hhi. set (d := Zpos (digits2_pos mp)) in *.
  pose proof (digits2_pos_bounds mp) as Hb. fold d in Hb.
  assert (Hf : fexp 53 1024 (Zdigits2 (Zpos mp) + e) - e = d - 53).
  { unfold fexp, emin. simpl Zdigits2. fold d. lia. }
  unfold binary_round_aux, shr_fexp. rewrite Hf.
  destruct (shr_desc (shr_record_of_loc (Zpos mp) l) e (d - 53) X) as [Hd1 He1];
    [lia | apply shr_record_of_loc_desc; [lia | exact H] |].
  destruct (shr (shr_record_of_loc (Zpos mp) l) e (d - 53)) as [mrs' e'] eqn:Es.
  cbn [fst snd] in Hd1, He1. subst e'.
  set (N := round_nearest_even (shr_m mrs') (loc_of_shr_record mrs')).
  assert (HN : rne_rel (X / p2 (d - 53)) N)
    by (destruct Hd1; apply round_nearest_even_rne; assumption).
  pose proof (loc_desc_bounds _ _ _ H) as [Hx1 Hx2].
  assert (HNlo : 2 ^ 52 <= N).
  { apply (rne_mono _ _ _ _ (rne_int (2 ^ 52)) HN).
    rewrite p2_IZR by lia. replace 52 with ((d - 1) - (d - 53)) by lia.
    rewrite <- p2_div. apply div_p2_le. rewrite <- p2_IZR by lia.
    eapply Rle_trans; [apply IZR_le; apply Hb | exact Hx1]. }
  assert (HNhi : N <= 2 ^ 53).
  { apply (rne_mono _ _ _ _ HN (rne_int (2 ^ 53))).
    rewrite p2_IZR by lia.
    replace (p2 53) with (p2 d / p2 (d - 53))%R by (rewrite p2_div; f_equal; lia).
    apply div_p2_le. rewrite <- p2_IZR by lia.
    left. eapply Rlt_le_trans; [exact Hx2|]. rewrite <- plus_IZR.
    apply IZR_le. lia. }
  destruct (Z.eq_dec N (2 ^ 53)) as [Etop | Etop].
  - rewrite Etop.
    assert (Hf2 : fexp 53 1024 (Zdigits2 (2 ^ 53) + (e + (d - 53))) - (e + (d - 53)) = 1).
    { unfold fexp, emin. replace (Zdigits2 (2 ^ 53)) with 54 by reflexivity. lia. }
    rewrite Hf2. cbn [shr iter_pos shr_1 shr_record_of_loc Z.pow Z.pow_pos Pos.iter
                      Z.mul Pos.mul shr_m fst snd].
    exists (2 ^ 53), (2 ^ 52)%positive, (e + (d - 53) + 1).
    replace (e + (d - 53) + 1 <=? 1024 - 53) with true by (symmetry; apply Z.leb_le; lia).
    split; [reflexivity|]. split; [|split; [now rewrite <- Etop | split; [lia | split; [lia | reflexivity]]]].
    rewrite p2_add, p2_1. replace (d + e - 53) with (e + (d - 53)) by lia.
    change (IZR (Zpos (2 ^ 52)%positive)) with (IZR (2 ^ 52)).
    change (IZR (2 ^ 53)) with (IZR (2 * 2 ^ 52)). rewrite mult_IZR. lra.
  - assert (Hpos : 0 < N) by lia.
    destruct N as [|np|np] eqn:EN; [lia| |lia].
    assert (Hdn : Zpos (digits2_pos np) = 53) by (apply digits2_pos_unique; simpl; lia).
    assert (Hf2 : fexp 53 1024 (Zdigits2 (Zpos np) + (e + (d - 53))) - (e + (d - 53)) = 0).
    { unfold fexp, emin. simpl Zdigits2. rewrite Hdn. lia. }
    rewrite Hf2. cbn [shr shr_record_of_loc shr_m fst snd].
    replace (e + (d - 53) <=? 1024 - 53) with true by (symmetry; apply Z.leb_le; lia).
    exists (Zpos np), np, (e + (d - 53)).
    split; [reflexivity|]. split; [|split; [exact HN | split; [lia | split; [intros _; split; lia | exact Hdn]]]].
    replace (d + e - 53) with (e + (d - 53)) by lia. reflexivity.
Qed.

Lemma val_pos_finite (M : positive) (E : Z) :
  val (S754_finite false M E) = (IZR (Zpos M) * p2 E)%R.
Proof. simpl. ring. Qed.

Lemma rne_bounds_scaled (x : R) (k N : Z) :
  (p2 (k - 1) <= x < p2 k)%R -> rne_rel (x / p2 (k - 53)) N -> 2 ^ 52 <= N <= 2 ^ 53.
Proof.
  intros [H1 H2] HN. split.
  - apply (rne_mono _ _ _ _ (rne_int (2 ^ 52)) HN).
    rewrite p2_IZR by lia.
    replace (p2 52) with (p2 (k - 1) / p2 (k - 53))%R by (rewrite p2_div; f_equal; lia).
    now apply div_p2_le.
  - apply (rne_mono _ _ _ _ HN (rne_int (2 ^ 53))).
    rewrite p2_IZR by lia.
    replace (p2 53) with (p2 k / p2 (k - 53))%R by (rewrite p2_div; f_equal; lia).
    left. now apply div_p2_lt.
Qed.

Lemma rounds_to_val (x : R) (f : double) :
  rounds_to x f ->
  exists k N, (p2 (k - 1) <= x < p2 k)%R /\ rne_rel (x / p2 (k - 53)) N
              /\ 2 ^ 52 <= N <= 2 ^ 53 /\ val f = (IZR N * p2 (k - 53))%R.
Proof.
  intros (k & N & M & E & Hx & _ & _ & HN & -> & HV & _).
  exists k, N. repeat split; try tauto.
  - apply (rne_bounds_scaled x k N Hx HN).
  - apply (rne_bounds_scaled x k N Hx HN).
  - rewrite val_pos_finite. exact HV.
Qed.

Lemma rounds_to_pos (x : R) (f : double) :
  rounds_to x f -> (0 < val f)%R /\ exists M E, f = S754_finite false M E.
Proof.
  intros Hr. split.
  - destruct (rounds_to_val x f Hr) as (k & N & _ & _ & HN & ->).
    apply Rmult_lt_0_compat; [apply IZR_lt; lia | apply p2_pos].
  - destruct Hr as (k & N & M & E & _ & _ & _ & _ & -> & _ & _). eauto.
Qed.

(** Rounding is monotone. *)
Lemma rounds_to_mono (x1 x2 : R) (f1 f2 : double) :
  rounds_to x1 f1 -> rounds_to x2 f2 -> (x1 <= x2)%R -> (val f1 <= val f2)%R.
Proof.
  intros H1 H2 Hle.
  destruct (rounds_to_val _ _ H1) as (k1 & N1 & [Hx1 Hx1'] & HN1 & HB1 & ->).
  destruct (rounds_to_val _ _ H2) as (k2 & N2 & [Hx2 Hx2'] & HN2 & HB2 & ->).
  destruct (Z.lt_total k1 k2) as [Hlt | [Heq | Hgt]].
  - (* val f1 <= 2^k1 <= 2^(k2-1) <= val f2 *)
    apply Rle_trans with (IZR (2 ^ 53) * p2 (k1 - 53))%R.
    { apply Rmult_le_compat_r; [left; apply p2_pos | apply IZR_le; lia]. }
    apply Rle_trans with (IZR (2 ^ 52) * p2 (k2 - 53))%R.
    { rewrite !p2_IZR by lia. rewrite <- !p2_add. apply p2_le. lia. }
    apply Rmult_le_compat_r; [left; apply p2_pos | apply IZR_le; lia].
  - subst k2. apply Rmult_le_compat_r; [left; apply p2_pos|].
    apply IZR_le. apply (rne_mono _ _ _ _ HN1 HN2). now apply div_p2_le.
  - exfalso. assert (p2 k2 <= p2 (k1 - 1))%R by (apply p2_le; lia). lra.
Qed.

(** A real that is a double already is its own rounding. *)
Lemma rounds_to_exact (x : R) (f : double) (K E0 : Z) :
  rounds_to x f -> x = (IZR K * p2 E0)%R ->
  (forall k, (p2 (k - 1) <= x < p2 k)%R -> k - 53 <= E0) ->
  val f = x.
Proof.
  intros Hr Hx Hk.
  destruct (rounds_to_val _ _ Hr) as (k & N & Hxk & HN & _ & ->).
  specialize (Hk k Hxk).
  assert (Hs : (x / p2 (k - 53) = IZR (K * 2 ^ (E0 - (k - 53))))%R).
  { rewrite Hx, mult_IZR, p2_IZR by lia.
    replace (p2 (E0 - (k - 53))) with (p2 E0 / p2 (k - 53))%R by apply p2_div.
    unfold Rdiv. ring. }
  rewrite Hs in HN. apply rne_unique_int in HN. subst N.
  rewrite <- Hs. pose proof (p2_pos (k - 53)). field. lra.
Qed.

Lemma round_aux_rounds_to (mp : positive) (e : Z) (l : location) (X : R) :
  loc_desc (Zpos mp) l X ->
  53 <= Zpos (digits2_pos mp) ->
  -1074 <= Zpos (digits2_pos mp) + e - 53 ->
  Zpos (digits2_pos mp) + e - 53 < 971 ->
  rounds_to (X * p2 e) (binary_round_aux 53 1024 false (Zpos mp) e l).
Proof.
  intros H Hd Hlo Hhi.
  destruct (round_aux_spec mp e l X H Hd Hlo Hhi) as (N & M & E & Eq & HV & HN & _ & _ & HM).
  set (d := Zpos (digits2_pos mp)) in *.
  pose proof (digits2_pos_bounds mp) as Hb. fold d in Hb.
  pose proof (loc_desc_bounds _ _ _ H) as [Hx1 Hx2].
  exists (d + e), N, M, E. repeat split; try lia.
  - replace (d + e - 1) with ((d - 1) + e) by lia. rewrite p2_add.
    apply Rmult_le_compat_r; [left; apply p2_pos|].
    rewrite <- p2_IZR by lia. eapply Rle_trans; [apply IZR_le, Hb | exact Hx1].
  - rewrite p2_add. apply Rmult_lt_compat_r; [apply p2_pos|].
    rewrite <- p2_IZR by lia. eapply Rlt_le_trans; [exact Hx2|].
    rewrite <- plus_IZR. apply IZR_le. lia.
  - replace (X * p2 e / p2 (d + e - 53))%R with (X / p2 (d - 53))%R; [exact HN|].
    replace (d + e - 53) with ((d - 53) + e) by lia. rewrite p2_add.
    pose proof (p2_pos e). pose proof (p2_pos (d - 53)). field. lra.
  - exact Eq.
  - exact HV.
Qed.

Lemma Pos_iter_xO (p n : positive) :
  Zpos (Pos.iter xO p n) = Zpos p * 2 ^ Zpos n.
Proof.
  induction n as [|n IH] using Pos.peano_ind.
  - cbn [Pos.iter]. rewrite Pos2Z.inj_xO. lia.
  - rewrite Pos.iter_succ, Pos2Z.inj_xO, IH, Pos2Z.inj_succ, Z.pow_succ_r by lia. ring.
Qed.

Lemma digits2_pos_shift (p n : positive) :
  Zpos (digits2_pos (Pos.iter xO p n)) = Zpos (digits2_pos p) + Zpos n.
Proof.
  apply digits2_pos_unique; [|lia]. rewrite Pos_iter_xO.
  pose proof (digits2_pos_bounds p) as [H1 H2].
  rewrite !Z.pow_add_r by lia.
  replace (Zpos (digits2_pos p) + Zpos n - 1) with ((Zpos (digits2_pos p) - 1) + Zpos n) by lia.
  rewrite Z.pow_add_r by lia.
  assert (0 < 2 ^ Zpos n) by (apply Z.pow_pos_nonneg; lia). nia.
Qed.

Lemma binary_round_rounds_to (mp : positive) (e : Z) :
  -1074 <= Zpos (digits2_pos mp) + e - 53 ->
  Zpos (digits2_pos mp) + e - 53 < 971 ->
  rounds_to (IZR (Zpos mp) * p2 e) (binary_round 53 1024 false mp e).
Proof.
  intros Hlo Hhi. set (d := Zpos (digits2_pos mp)) in *.
  unfold binary_round, shl_align.
  assert (Hf : fexp 53 1024 (Zpos (digits2_pos mp) + e) = d + e - 53)
    by (unfold fexp, emin; fold d; lia).
  rewrite Hf. replace (d + e - 53 - e) with (d - 53) by lia.
  destruct (d - 53) as [|q|q] eqn:Ed.
  - apply round_aux_rounds_to; [reflexivity | fold d; lia ..].
  - apply round_aux_rounds_to; [reflexivity | fold d; lia ..].
  - assert (Hq : Zpos (digits2_pos (Pos.iter xO mp q)) = 53)
      by (rewrite digits2_pos_shift; fold d; lia).
    replace (IZR (Zpos mp) * p2 e)%R with (IZR (Zpos (Pos.iter xO mp q)) * p2 (d + e - 53))%R.
    + apply round_aux_rounds_to; [reflexivity | rewrite Hq; lia ..].
    + rewrite Pos_iter_xO, mult_IZR, p2_IZR by lia.
      rewrite Rmult_assoc, <- p2_add. f_equal. f_equal. lia.
Qed.

(** The conversion of a C integer to double. *)
Lemma of_int_zero : of_int 0 = S754_zero false.
Proof. reflexivity. Qed.

Lemma of_int_rounds_to (k : Z) :
  0 < k < 2 ^ 53 -> rounds_to (IZR k) (of_int k) /\ val (of_int k) = IZR k.
Proof.
  intros Hk. destruct k as [|kp|kp]; [lia| |lia].
  pose proof (digits2_pos_bounds kp) as [B1 B2].
  assert (Hd : Zpos (digits2_pos kp) <= 53).
  { destruct (Z.le_gt_cases (Zpos (digits2_pos kp)) 53) as [|Hg]; [assumption|].
    assert (2 ^ 53 <= 2 ^ (Zpos (digits2_pos kp) - 1)) by (apply Z.pow_le_mono_r; lia). lia. }
  assert (Hr : rounds_to (IZR (Zpos kp)) (of_int (Zpos kp))).
  { unfold of_int, binary_normalize. rewrite <- (Rmult_1_r (IZR (Zpos kp))), <- p2_0.
    pose proof (Pos2Z.is_pos (digits2_pos kp)). apply binary_round_rounds_to; lia. }
  split; [exact Hr|].
  apply (rounds_to_exact _ _ (Zpos kp) 0 Hr); [rewrite p2_0; ring|].
  intros k [Hk1 Hk2].
  destruct (Z.le_gt_cases k 53) as [|Hg]; [lia|exfalso].
  assert (p2 53 <= p2 (k - 1))%R by (apply p2_le; lia).
  assert (IZR (Zpos kp) < IZR (2 ^ 53))%R by (apply IZR_lt; lia).
  rewrite p2_IZR in * by lia. lra.
Qed.

Lemma p2_lt_inv (a b : Z) : (p2 a < p2 b)%R -> a < b.
Proof.
  intros H. destruct (Z.lt_ge_cases a b) as [|Hge]; [assumption|].
  pose proof (p2_le b a Hge). lra.
Qed.

Lemma mant_val_bounds (m : positive) (e : Z) :
  (p2 (Zpos (digits2_pos m) + e - 1) <= IZR (Zpos m) * p2 e
   < p2 (Zpos (digits2_pos m) + e))%R.
Proof.
  pose proof (digits2_pos_bounds m) as [B1 B2].
  replace (Zpos (digits2_pos m) + e - 1) with ((Zpos (digits2_pos m) - 1) + e) by lia.
  rewrite !p2_add. pose proof (p2_pos e). split.
  - apply Rmult_le_compat_r; [lra|]. rewrite <- p2_IZR by lia. now apply IZR_le.
  - apply Rmult_lt_compat_r; [lra|]. rewrite <- p2_IZR by lia. now apply IZR_lt.
Qed.

Lemma in_range_exp (m : positive) (e : Z) :
  in_range (IZR (Zpos m) * p2 e) ->
  -1074 <= Zpos (digits2_pos m) + e - 53 /\ Zpos (digits2_pos m) + e - 53 < 971.
Proof.
  intros [H1 H2]. pose proof (mant_val_bounds m e) as [B1 B2].
  assert (-1000 < Zpos (digits2_pos m) + e) by (apply p2_lt_inv; lra).
  assert (Zpos (digits2_pos m) + e - 1 < 900) by (apply p2_lt_inv; lra).
  lia.
Qed.

Lemma round_aux_val (mp : positive) (e : Z) :
  53 <= Zpos (digits2_pos mp) -> in_range (IZR (Zpos mp) * p2 e) ->
  rounds_to (IZR (Zpos mp) * p2 e) (binary_round_aux 53 1024 false (Zpos mp) e loc_Exact).
Proof.
  intros Hd Hr. destruct (in_range_exp mp e Hr).
  apply round_aux_rounds_to; [reflexivity | lia ..].
Qed.

Lemma binary_round_val (mp : positive) (e : Z) :
  in_range (IZR (Zpos mp) * p2 e) ->
  rounds_to (IZR (Zpos mp) * p2 e) (binary_round 53 1024 false mp e).
Proof.
  intros Hr. destruct (in_range_exp mp e Hr). apply binary_round_rounds_to; lia.
Qed.

Lemma mul_rounds_to (m1 m2 : positive) (e1 e2 : Z) :
  Zpos (digits2_pos m1) = 53 -> Zpos (digits2_pos m2) = 53 ->
  in_range (val (S754_finite false m1 e1) * val (S754_finite false m2 e2)) ->
  rounds_to (val (S754_finite false m1 e1) * val (S754_finite false m2 e2))
            (SFmul 53 1024 (S754_finite false m1 e1) (S754_finite false m2 e2)).
Proof.
  intros H1 H2. rewrite !val_pos_finite.
  replace (IZR (Zpos m1) * p2 e1 * (IZR (Zpos m2) * p2 e2))%R
    with (IZR (Zpos (m1 * m2)) * p2 (e1 + e2))%R
    by (rewrite Pos2Z.inj_mul, mult_IZR, p2_add; ring).
  intros Hr. cbn [SFmul xorb]. apply round_aux_val; [|exact Hr].
  pose proof (digits2_pos_bounds m1) as [A1 _]. pose proof (digits2_pos_bounds m2) as [A2 _].
  pose proof (digits2_pos_bounds (m1 * m2)) as [_ B]. rewrite H1, H2 in *.
  rewrite Pos2Z.inj_mul in B.
  destruct (Z.le_gt_cases 53 (Zpos (digits2_pos (m1 * m2)))) as [|Hlt]; [assumption|].
  assert (2 ^ Zpos (digits2_pos (m1 * m2)) <= 2 ^ 52) by (apply Z.pow_le_mono_r; lia).
  change (53 - 1) with 52 in *. nia.
Qed.

Lemma new_location_desc (q r b : Z) :
  0 <= r < b -> loc_desc q (new_location b r) (IZR q + IZR r / IZR b)%R.
Proof.
  intros [Hr Hb]. assert (Hb' : (0 < IZR b)%R) by (apply IZR_lt; lia).
  assert (Hlt1 : (IZR r / IZR b < 1)%R).
  { apply (Rmult_lt_reg_r (IZR b)); [exact Hb'|].
    unfold Rdiv. rewrite Rmult_assoc, Rinv_l by lra. rewrite Rmult_1_l, Rmult_1_r. now apply IZR_lt. }
  assert (Hhalf : forall c, (2 * r ?= b) = c ->
            match c with
            | Lt => (IZR r / IZR b < / 2)%R
            | Eq => (IZR r / IZR b = / 2)%R
            | Gt => (/ 2 < IZR r / IZR b)%R
            end).
  { intros c Hc. destruct c.
    - apply Z.compare_eq in Hc.
      apply (Rmult_eq_reg_r (2 * IZR b)); [|lra]. field_simplify; [|lra].
      rewrite <- Hc, mult_IZR. simpl. lra.
    - apply Z.compare_lt_iff in Hc. apply IZR_lt in Hc. rewrite mult_IZR in Hc.
      apply (Rmult_lt_reg_r (2 * IZR b)); [lra|]. field_simplify; [|lra]. simpl in Hc. lra.
    - apply Z.compare_gt_iff in Hc. apply IZR_lt in Hc. rewrite mult_IZR in Hc.
      apply (Rmult_lt_reg_r (2 * IZR b)); [lra|]. field_simplify; [|lra]. simpl in Hc. lra. }
  assert (Hpos : r <> 0 -> (0 < IZR r / IZR b)%R).
  { intros Hr0. apply Rdiv_lt_0_compat; [apply IZR_lt; lia | exact Hb']. }
  unfold new_location, new_location_even, new_location_odd. cbv beta.
  destruct (Z.eqb_spec r 0) as [Hr0|Hr0].
  - subst r. destruct (Z.even b); unfold Rdiv; simpl; ring.
  - specialize (Hpos Hr0). destruct (Z.even b) eqn:Ev; cbv beta;
      rewrite (proj2 (Z.eqb_neq r 0) Hr0).
    + pose proof (Hhalf _ eq_refl) as Hh. destruct (2 * r ?= b); simpl; lra.
    + assert (Hne : 2 * r <> b).
      { intros <-. rewrite Z.even_mul in Ev. discriminate. }
      destruct (2 * r + 1 ?= b) eqn:Hc; simpl.
      * pose proof (Z.compare_eq _ _ Hc).
        assert (Hc' : (2 * r ?= b) = Lt) by (apply Z.compare_lt_iff; lia).
        pose proof (Hhalf _ Hc'). lra.
      * pose proof (proj1 (Z.compare_lt_iff _ _) Hc).
        assert (Hc' : (2 * r ?= b) = Lt) by (apply Z.compare_lt_iff; lia).
        pose proof (Hhalf _ Hc'). lra.
      * pose proof (proj1 (Z.compare_gt_iff _ _) Hc).
        assert (Hc' : (2 * r ?= b) = Gt) by (apply Z.compare_gt_iff; lia).
        pose proof (Hhalf _ Hc'). lra.
Qed.

Lemma div_rounds_to (m1 m2 : positive) (e1 e2 : Z) :
  Zpos (digits2_pos m1) = 53 -> Zpos (digits2_pos m2) = 53 ->
  -900 <= e1 - e2 <= 900 ->
  rounds_to (val (S754_finite false m1 e1) / val (S754_finite false m2 e2))
            (SFdiv 53 1024 (S754_finite false m1 e1) (S754_finite false m2 e2)).
Proof.
  intros H1 H2 He. rewrite !val_pos_finite.
  cbn [SFdiv xorb]. unfold SFdiv_core_binary. cbn [Zdigits2]. rewrite H1, H2.
  assert (Hf : Z.min (fexp 53 1024 (53 + e1 - (53 + e2))) (e1 - e2) = e1 - e2 - 53)
    by (unfold fexp, emin; lia).
  rewrite Hf. replace (e1 - e2 - (e1 - e2 - 53)) with 53 by lia.
  rewrite Z.shiftl_mul_pow2 by lia.
  pose proof (Z_div_mod (Zpos m1 * 2 ^ 53) (Zpos m2) ltac:(lia)) as Hdm.
  destruct (Z.div_eucl (Zpos m1 * 2 ^ 53) (Zpos m2)) as [q r] eqn:Eqr.
  destruct Hdm as [Hqr Hr].
  pose proof (digits2_pos_bounds m1) as [A1 B1]. pose proof (digits2_pos_bounds m2) as [A2 B2].
  rewrite H1 in A1, B1. rewrite H2 in A2, B2. change (53 - 1) with 52 in *.
  assert (Hq1 : 2 ^ 52 <= q) by nia.
  destruct q as [|qp|qp]; [lia| |lia].
  assert (Hdq : 53 <= Zpos (digits2_pos qp)).
  { pose proof (digits2_pos_bounds qp) as [_ Bq].
    destruct (Z.le_gt_cases 53 (Zpos (digits2_pos qp))) as [|Hlt]; [assumption|].
    assert (2 ^ Zpos (digits2_pos qp) <= 2 ^ 52) by (apply Z.pow_le_mono_r; lia). lia. }
  assert (Hq2 : Zpos qp < 2 ^ 54) by nia.
  assert (Hdq' : Zpos (digits2_pos qp) <= 54).
  { pose proof (digits2_pos_bounds qp) as [Aq _].
    destruct (Z.le_gt_cases (Zpos (digits2_pos qp)) 54) as [|Hlt]; [assumption|].
    assert (2 ^ 54 <= 2 ^ (Zpos (digits2_pos qp) - 1)) by (apply Z.pow_le_mono_r; lia). lia. }
  cbv beta iota.
  set (X := (IZR (Zpos qp) + IZR r / IZR (Zpos m2))%R).
  replace (IZR (Zpos m1) * p2 e1 / (IZR (Zpos m2) * p2 e2))%R with (X * p2 (e1 - e2 - 53))%R.
  - apply round_aux_rounds_to; [apply new_location_desc; lia | lia ..].
  - assert (HX : (X = IZR (Zpos m1 * 2 ^ 53) / IZR (Zpos m2))%R).
    { unfold X. rewrite Hqr, plus_IZR, mult_IZR. field. apply not_0_IZR. lia. }
    rewrite HX, mult_IZR, p2_IZR by lia.
    replace (e1 - e2 - 53) with (e1 + (- e2 + - 53)) by lia. rewrite !p2_add.
    pose proof (p2_pos e2). pose proof (p2_pos 53).
    assert (E2 : p2 (- e2) = Rinv (p2 e2)).
    { apply (Rmult_eq_reg_r (p2 e2)); [|lra].
      rewrite <- p2_add, Z.add_opp_diag_l, Rinv_l by lra. reflexivity. }
    assert (E53 : p2 (- 53) = Rinv (p2 53)).
    { apply (Rmult_eq_reg_r (p2 53)); [|lra].
      rewrite <- p2_add, Rinv_l by lra. reflexivity. }
    assert (IZR (Zpos m2) <> 0)%R by (apply not_0_IZR; lia).
    rewrite E2, E53. field. lra.
Qed.

Lemma shl_align_val (m : positive) (e ez : Z) :
  ez <= e -> (IZR (Zpos (fst (shl_align m e ez))) * p2 ez = IZR (Zpos m) * p2 e)%R.
Proof.
  intros He. unfold shl_align. destruct (ez - e) as [|d|d] eqn:Ed.
  - cbn [fst]. f_equal. f_equal. lia.
  - lia.
  - cbn [fst]. rewrite Pos_iter_xO, mult_IZR, p2_IZR by lia.
    rewrite Rmult_assoc, <- p2_add. f_equal. f_equal. lia.
Qed.

Lemma add_rounds_to (m1 m2 : positive) (e1 e2 : Z) :
  in_range (val (S754_finite false m1 e1) + val (S754_finite false m2 e2)) ->
  rounds_to (val (S754_finite false m1 e1) + val (S754_finite false m2 e2))
            (SFadd 53 1024 (S754_finite false m1 e1) (S754_finite false m2 e2)).
Proof.
  rewrite !val_pos_finite.
  rewrite <- (shl_align_val m1 e1 (Z.min e1 e2)) by lia.
  rewrite <- (shl_align_val m2 e2 (Z.min e1 e2)) by lia.
  unfold SFadd, cond_Zopp. cbv beta iota zeta.
  set (a := fst (shl_align m1 e1 (Z.min e1 e2))).
  set (b := fst (shl_align m2 e2 (Z.min e1 e2))).
  change (Zpos a + Zpos b) with (Zpos (a + b)). unfold binary_normalize.
  replace (IZR (Zpos a) * p2 (Z.min e1 e2) + IZR (Zpos b) * p2 (Z.min e1 e2))%R
    with (IZR (Zpos (a + b)) * p2 (Z.min e1 e2))%R
    by (rewrite Pos2Z.inj_add, plus_IZR; ring).
  apply binary_round_val.
Qed.

Lemma loc_desc_exists (m : Z) (l : location) : exists X, loc_desc m l X.
Proof.
  destruct l as [|[]].
  - exists (IZR m). reflexivity.
  - exists (IZR m + / 2)%R. reflexivity.
  - exists (IZR m + / 4)%R. simpl. lra.
  - exists (IZR m + 3 / 4)%R. simpl. lra.
Qed.

Lemma shr_any_desc (mrs : shr_record) (e n : Z) (X : R) :
  rec_desc mrs X -> exists Y, rec_desc (fst (shr mrs e n)) Y.
Proof.
  intros H. destruct n as [|p|p].
  - exists X. exact H.
  - exists (X / p2 (Zpos p))%R. apply (shr_desc mrs e (Zpos p) X); [lia | exact H].
  - exists X. exact H.
Qed.

Lemma rne_nonneg (X : R) (N : Z) : (0 <= X)%R -> rne_rel X N -> 0 <= N.
Proof.
  intros HX HN. destruct (Z.lt_ge_cases N 0) as [Hlt|]; [exfalso|assumption].
  assert (IZR N <= -1)%R by (apply IZR_le; lia).
  destruct HN as [HN | [[HN|HN] _]]; lra.
Qed.

(** Rounding a nonnegative mantissa never gives a negative double. *)
Lemma round_aux_nonneg (mz ez : Z) (lz : location) :
  0 <= mz -> SFleb (S754_zero false) (binary_round_aux 53 1024 false mz ez lz) = true.
Proof.
  intros Hm. destruct (loc_desc_exists mz lz) as [X HX].
  unfold binary_round_aux, shr_fexp.
  destruct (shr_any_desc (shr_record_of_loc mz lz) ez
              (fexp 53 1024 (Zdigits2 mz + ez) - ez) X) as [Y [HY1 HY2]];
    [apply shr_record_of_loc_desc; assumption|].
  destruct (shr (shr_record_of_loc mz lz) ez (fexp 53 1024 (Zdigits2 mz + ez) - ez))
    as [mrs' e'] eqn:E1.
  cbn [fst] in HY1, HY2.
  pose proof (round_nearest_even_rne _ _ _ HY2) as HN.
  pose proof (loc_desc_bounds _ _ _ HY2) as [HYlo _].
  set (N := round_nearest_even (shr_m mrs') (loc_of_shr_record mrs')) in *.
  assert (HN0 : 0 <= N).
  { apply (rne_nonneg Y); [|exact HN]. apply IZR_le in HY1. lra. }
  destruct (shr_any_desc (shr_record_of_loc N loc_Exact) e'
              (fexp 53 1024 (Zdigits2 N + e') - e') (IZR N)) as [Z1 [HZ1 _]];
    [apply shr_record_of_loc_desc; [assumption | reflexivity]|].
  destruct (shr (shr_record_of_loc N loc_Exact) e' (fexp 53 1024 (Zdigits2 N + e') - e'))
    as [mrs'' e''] eqn:E2.
  cbn [fst] in HZ1.
  destruct (shr_m mrs'') as [|p|p]; [reflexivity | | lia].
  destruct (e'' <=? 1024 - 53); reflexivity.
Qed.

Lemma sub_nonneg (F S : double) :
  pos_or_zero F -> pos_or_zero S -> (val S <= val F)%R ->
  SFleb (S754_zero false) (SFsub 53 1024 F S) = true.
Proof.
  intros [->|(m1 & e1 & ->)] [->|(m2 & e2 & ->)] Hle.
  - reflexivity.
  - exfalso. rewrite val_pos_finite in Hle. cbn [val] in Hle.
    pose proof (p2_pos e2). assert (0 < IZR (Zpos m2))%R by (apply IZR_lt; lia).
    assert (0 < IZR (Zpos m2) * p2 e2)%R by (apply Rmult_lt_0_compat; lra). lra.
  - reflexivity.
  - rewrite !val_pos_finite in Hle.
    rewrite <- (shl_align_val m1 e1 (Z.min e1 e2)) in Hle by lia.
    rewrite <- (shl_align_val m2 e2 (Z.min e1 e2)) in Hle by lia.
    unfold SFsub, cond_Zopp. cbv beta iota zeta.
    set (a := fst (shl_align m1 e1 (Z.min e1 e2))) in *.
    set (b := fst (shl_align m2 e2 (Z.min e1 e2))) in *.
    assert (Hab : Zpos b <= Zpos a).
    { apply le_IZR. pose proof (p2_pos (Z.min e1 e2)).
      apply (Rmult_le_reg_r (p2 (Z.min e1 e2))); assumption. }
    unfold binary_normalize.
    destruct (Zpos a - Zpos b) as [|p|p] eqn:Ed; [reflexivity | | lia].
    unfold binary_round. destruct (shl_align p (Z.min e1 e2) _) as [mz ez].
    apply round_aux_nonneg. lia.
Qed.

Lemma approx_mono (x1 x2 : R) (f1 f2 : double) :
  approx x1 f1 -> approx x2 f2 -> (x1 <= x2)%R -> (val f1 <= val f2)%R.
Proof.
  intros [[Hx1 ->]|[Hx1 H1]] [[Hx2 ->]|[Hx2 H2]] Hle; cbn [val].
  - lra.
  - left. apply (rounds_to_pos _ _ H2).
  - lra.
  - exact (rounds_to_mono _ _ _ _ H1 H2 Hle).
Qed.

Lemma approx_nonneg (x : R) (f : double) : approx x f -> (0 <= val f)%R.
Proof.
  intros [[_ ->]|[_ H]]; cbn [val]; [lra|]. left. apply (rounds_to_pos _ _ H).
Qed.

Lemma approx_shape (x : R) (f : double) :
  approx x f -> pos_or_zero f.
Proof.
  intros [[_ ->]|[_ H]]; [left; reflexivity|right].
  apply (rounds_to_pos _ _ H).
Qed.

Lemma rounds_to_digits (x : R) (f : double) :
  rounds_to x f -> exists m e, f = S754_finite false m e /\ Zpos (digits2_pos m) = 53.
Proof. intros (k & N & M & E & _ & _ & _ & _ & -> & _ & HM). eauto. Qed.

Lemma rounds_to_bounds (x : R) (f : double) :
  rounds_to x f -> (x / 2 < val f <= 2 * x)%R.
Proof.
  intros Hr. destruct (rounds_to_val _ _ Hr) as (k & N & [Hx1 Hx2] & _ & [HN1 HN2] & ->).
  assert (Ek : p2 k = (2 * p2 (k - 1))%R)
    by (replace k with (1 + (k - 1)) at 1 by lia; rewrite p2_add, p2_1; reflexivity).
  assert (E1 : p2 (k - 1) = (IZR (2 ^ 52) * p2 (k - 53))%R)
    by (rewrite p2_IZR, <- p2_add by lia; f_equal; lia).
  assert (E2 : p2 k = (IZR (2 ^ 53) * p2 (k - 53))%R)
    by (rewrite p2_IZR, <- p2_add by lia; f_equal; lia).
  pose proof (p2_pos (k - 53)).
  apply IZR_le in HN1. apply IZR_le in HN2.
  split.
  - assert (IZR (2 ^ 52) * p2 (k - 53) <= IZR N * p2 (k - 53))%R
      by (apply Rmult_le_compat_r; lra). lra.
  - assert (IZR N * p2 (k - 53) <= IZR (2 ^ 53) * p2 (k - 53))%R
      by (apply Rmult_le_compat_r; lra). lra.
Qed.

Lemma rounds_to_self (x : R) (f : double) :
  rounds_to x f -> (x < p2 900)%R -> rounds_to (val f) f.
Proof.
  intros Hr Hx. pose proof Hr as (k & N & M & E & [Hk1 Hk2] & Hlo & Hhi & HN & Ef & HV & HM).
  assert (k - 1 < 900) by (apply p2_lt_inv; lra).
  pose proof (rne_bounds_scaled x k N (conj Hk1 Hk2) HN) as [HN1 HN2].
  assert (Hv : val f = (IZR N * p2 (k - 53))%R) by (rewrite Ef, val_pos_finite; exact HV).
  pose proof (p2_pos (k - 53)).
  destruct (Z.eq_dec N (2 ^ 53)) as [Etop|Etop].
  - exists (k + 1), (2 ^ 52), M, E.
    assert (Ev : val f = p2 k)
      by (rewrite Hv, Etop, p2_IZR, <- p2_add by lia; f_equal; lia).
    rewrite Ev. repeat split; try lia.
    + replace (k + 1 - 1) with k by lia. lra.
    + rewrite p2_add, p2_1. pose proof (p2_pos k). lra.
    + replace (p2 k / p2 (k + 1 - 53))%R with (IZR (2 ^ 52)); [apply rne_int|].
      rewrite p2_div, p2_IZR by lia. f_equal. lia.
    + exact Ef.
    + rewrite HV, Etop, !p2_IZR, <- !p2_add by lia. f_equal. lia.
  - exists k, N, M, E. rewrite Hv. repeat split; try lia.
    + replace (p2 (k - 1)) with (IZR (2 ^ 52) * p2 (k - 53))%R
        by (rewrite p2_IZR, <- p2_add by lia; f_equal; lia).
      apply Rmult_le_compat_r; [lra | apply IZR_le; lia].
    + replace (p2 k) with (IZR (2 ^ 53) * p2 (k - 53))%R
        by (rewrite p2_IZR, <- p2_add by lia; f_equal; lia).
      apply Rmult_lt_compat_r; [lra | apply IZR_lt; lia].
    + replace (IZR N * p2 (k - 53) / p2 (k - 53))%R with (IZR N) by (field; lra).
      apply rne_int.
    + exact Ef.
    + exact HV.
Qed.

Lemma rounds_to_int (K : Z) (f : double) :
  0 < K < 2 ^ 53 -> rounds_to (IZR K) f -> val f = IZR K.
Proof.
  intros HK Hr. apply (rounds_to_exact _ _ K 0 Hr); [rewrite p2_0; ring|].
  intros k [Hk1 Hk2].
  destruct (Z.le_gt_cases k 53) as [|Hg]; [lia|exfalso].
  assert (p2 53 <= p2 (k - 1))%R by (apply p2_le; lia).
  assert (IZR K < IZR (2 ^ 53))%R by (apply IZR_lt; lia).
  rewrite p2_IZR in * by lia. lra.
Qed.

Lemma of_int_approx (k : Z) :
  0 <= k < 2 ^ 53 -> approx (IZR k) (of_int k) /\ val (of_int k) = IZR k.
Proof.
  intros Hk. destruct (Z.eq_dec k 0) as [->|Hk0].
  - split; [left; split; reflexivity | reflexivity].
  - destruct (of_int_rounds_to k ltac:(lia)) as [Hr Hv]. split; [|exact Hv].
    right. split; [apply IZR_lt; lia | exact Hr].
Qed.

Lemma of_int_1000 : of_int 1000 = S754_finite false 8796093022208000 (-43).
Proof. reflexivity. Qed.

Lemma of_int_1000000 : of_int 1000000 = S754_finite false 8589934592000000 (-33).
Proof. reflexivity. Qed.

Lemma sec_ms_spec (s : Z) :
  0 <= s < 2 ^ 43 ->
  approx (IZR (1000 * s)) (sec_ms s) /\ val (sec_ms s) = IZR (1000 * s).
Proof.
  intros Hs. unfold sec_ms, dmul. destruct (Z.eq_dec s 0) as [->|Hs0].
  - split; [left; split; reflexivity | reflexivity].
  - destruct (of_int_rounds_to s ltac:(lia)) as [Hr1 Hv1].
    destruct (rounds_to_digits _ _ Hr1) as (m1 & e1 & E1 & D1).
    rewrite E1 in Hv1 |- *. rewrite of_int_1000.
    assert (Hr : rounds_to (IZR (1000 * s)) (SFmul 53 1024 (S754_finite false m1 e1)
                                             (S754_finite false 8796093022208000 (-43)))).
    { replace (IZR (1000 * s))
        with (val (S754_finite false m1 e1) * val (S754_finite false 8796093022208000 (-43)))%R.
      - apply mul_rounds_to; [exact D1 | reflexivity |].
        rewrite <- of_int_1000, (proj2 (of_int_rounds_to 1000 ltac:(lia))), Hv1, <- mult_IZR.
        split.
        + apply Rle_trans with (p2 0); [apply p2_le; lia|].
          rewrite <- p2_IZR by lia. apply IZR_le. lia.
        + apply Rlt_le_trans with (p2 53); [|apply p2_le; lia].
          rewrite <- p2_IZR by lia. apply IZR_lt. lia.
      - rewrite <- of_int_1000, (proj2 (of_int_rounds_to 1000 ltac:(lia))), Hv1, <- mult_IZR.
        f_equal. lia. }
    split.
    + right. split; [apply IZR_lt; lia | exact Hr].
    + apply rounds_to_int; [lia | exact Hr].
Qed.

Lemma nsec_ms_spec (ns : Z) :
  0 <= ns < 10 ^ 9 ->
  approx (IZR ns / 1000000) (nsec_ms ns) /\ (0 <= val (nsec_ms ns) <= 1000)%R.
Proof.
  intros Hns.
  assert (Ha : approx (IZR ns / 1000000) (nsec_ms ns)).
  { unfold nsec_ms, ddiv. destruct (Z.eq_dec ns 0) as [->|Hns0].
    - left. split; [unfold Rdiv; ring | reflexivity].
    - right. split; [apply Rdiv_lt_0_compat; [apply IZR_lt; lia | lra]|].
      destruct (of_int_rounds_to ns ltac:(lia)) as [Hr1 Hv1].
      destruct (rounds_to_digits _ _ Hr1) as (m1 & e1 & E1 & D1).
      rewrite E1 in Hv1 |- *. rewrite of_int_1000000.
      pose proof (mant_val_bounds m1 e1) as [B1 B2].
      rewrite D1 in B1, B2. rewrite <- val_pos_finite, Hv1 in B1, B2.
      assert (0 < 53 + e1).
      { apply p2_lt_inv. rewrite p2_0. apply Rle_lt_trans with (IZR ns); [|lra].
        apply IZR_le. lia. }
      assert (e1 + 52 < 30).
      { replace (53 + e1 - 1) with (e1 + 52) in B1 by lia.
        apply p2_lt_inv. apply Rle_lt_trans with (IZR ns); [exact B1|].
        rewrite <- p2_IZR by lia. apply IZR_lt. lia. }
      replace (IZR ns / 1000000)%R
        with (val (S754_finite false m1 e1) / val (S754_finite false 8589934592000000 (-33)))%R.
      + apply div_rounds_to; [exact D1 | reflexivity | lia].
      + rewrite <- of_int_1000000, (proj2 (of_int_rounds_to 1000000 ltac:(lia))), Hv1.
        reflexivity. }
  split; [exact Ha|]. split; [exact (approx_nonneg _ _ Ha)|].
  destruct (of_int_approx 1000 ltac:(lia)) as [H1000 V1000].
  rewrite <- V1000. apply (approx_mono _ _ _ _ Ha H1000).
  apply (Rmult_le_reg_r 1000000); [lra|].
  unfold Rdiv. rewrite Rmult_assoc, Rinv_l, Rmult_1_r by lra.
  rewrite <- mult_IZR. apply IZR_le. lia.
Qed.

Lemma ts_to_ms_split (s ns : Z) :
  ts_to_ms (mk_timespec s ns) = SFadd 53 1024 (sec_ms s) (nsec_ms ns).
Proof. reflexivity. Qed.

Lemma ms_approx (s ns : Z) :
  0 <= s < 2 ^ 43 -> 0 <= ns < 10 ^ 9 ->
  approx (val (sec_ms s) + val (nsec_ms ns)) (ts_to_ms (mk_timespec s ns)).
Proof.
  intros Hs Hns.
  destruct (sec_ms_spec s Hs) as [HA VA]. destruct (nsec_ms_spec ns Hns) as [HB [VB0 VB1]].
  assert (Hp2 : (IZR (1000 * s) + 1000 < p2 900)%R).
  { apply Rlt_le_trans with (p2 54); [|apply p2_le; lia].
    rewrite <- p2_IZR, <- plus_IZR by lia. apply IZR_lt. lia. }
  rewrite ts_to_ms_split. destruct HA as [[EA ZA]|[PA RA]]; destruct HB as [[EB ZB]|[PB RB]].
  - rewrite ZA, ZB. left. split; [cbn [val]; ring | reflexivity].
  - destruct (rounds_to_digits _ _ RB) as (m & e & FB & _). rewrite ZA, FB in *.
    right. cbn [SFadd val]. rewrite Rplus_0_l. split; [apply (rounds_to_pos _ _ RB)|].
    apply (rounds_to_self _ _ RB).
    apply Rle_lt_trans with 1000%R; [|lra].
    apply (Rmult_le_reg_r 1000000); [lra|].
    unfold Rdiv. rewrite Rmult_assoc, Rinv_l, Rmult_1_r by lra.
    rewrite <- mult_IZR. apply IZR_le. lia.
  - destruct (rounds_to_digits _ _ RA) as (m & e & FA & _). rewrite ZB, FA in *.
    right. cbn [SFadd]. change (val (S754_zero false)) with 0%R.
    rewrite Rplus_0_r, VA. split; [exact PA | exact RA].
  - destruct (rounds_to_digits _ _ RA) as (m1 & e1 & FA & _).
    destruct (rounds_to_digits _ _ RB) as (m2 & e2 & FB & _).
    rewrite FA, FB in *. right.
    split; [pose proof (rounds_to_pos _ _ RA); pose proof (rounds_to_pos _ _ RB); lra|].
    apply add_rounds_to. rewrite VA. split.
    + apply Rle_trans with (IZR (1000 * s)); [|lra].
      apply Rle_trans with (p2 0); [apply p2_le; lia|].
      rewrite <- p2_IZR by lia. apply IZR_le. pose proof (lt_IZR _ _ PA). lia.
    + lra.
Qed.

(** For timestamps with fewer than [2^43] seconds, [ts_to_ms] is monotone. *)
Lemma ms_val_mono (s1 ns1 s2 ns2 : Z) :
  0 <= s1 < 2 ^ 43 -> 0 <= ns1 < 10 ^ 9 ->
  0 <= s2 < 2 ^ 43 -> 0 <= ns2 < 10 ^ 9 ->
  s1 < s2 \/ (s1 = s2 /\ ns1 <= ns2) ->
  (val (ts_to_ms (mk_timespec s1 ns1)) <= val (ts_to_ms (mk_timespec s2 ns2)))%R.
Proof.
  intros Hs1 Hns1 Hs2 Hns2 Hle.
  pose proof (ms_approx s1 ns1 Hs1 Hns1) as T1.
  pose proof (ms_approx s2 ns2 Hs2 Hns2) as T2.
  destruct (sec_ms_spec s1 Hs1) as [HA1 VA1]. destruct (sec_ms_spec s2 Hs2) as [HA2 VA2].
  destruct (nsec_ms_spec ns1 Hns1) as [HB1 [VB1 VB1']].
  destruct (nsec_ms_spec ns2 Hns2) as [HB2 [VB2 VB2']].
  destruct Hle as [Hlt | [<- Hns]].
  - destruct (of_int_approx (1000 * (s1 + 1)) ltac:(lia)) as [HC VC].
    apply Rle_trans with (val (of_int (1000 * (s1 + 1)))).
    { apply (approx_mono _ _ _ _ T1 HC). rewrite VA1, !mult_IZR, plus_IZR. lra. }
    apply Rle_trans with (val (sec_ms s2)).
    { rewrite VC, VA2. apply IZR_le. lia. }
    rewrite <- VA2 in HA2 at 1.
    apply (approx_mono _ _ _ _ HA2 T2). rewrite VA2. lra.
  - apply (approx_mono _ _ _ _ T1 T2). apply Rplus_le_compat_l.
    apply (approx_mono _ _ _ _ HB1 HB2). unfold Rdiv.
    apply Rmult_le_compat_r; [left; apply Rinv_0_lt_compat; lra | apply IZR_le; lia].
Qed.

(** For timestamps with fewer than [2^43] seconds, converting and subtracting
    never gives a negative elapsed time. *)
Lemma ms_sub_nonneg (s1 ns1 s2 ns2 : Z) :
  0 <= s1 < 2 ^ 43 -> 0 <= ns1 < 10 ^ 9 ->
  0 <= s2 < 2 ^ 43 -> 0 <= ns2 < 10 ^ 9 ->
  s1 < s2 \/ (s1 = s2 /\ ns1 <= ns2) ->
  SFleb (S754_zero false)
        (SFsub 53 1024 (ts_to_ms (mk_timespec s2 ns2)) (ts_to_ms (mk_timespec s1 ns1))) = true.
Proof.
  intros Hs1 Hns1 Hs2 Hns2 Hle.
  apply sub_nonneg.
  - exact (approx_shape _ _ (ms_approx s2 ns2 Hs2 Hns2)).
  - exact (approx_shape _ _ (ms_approx s1 ns1 Hs1 Hns1)).
  - exact (ms_val_mono s1 ns1 s2 ns2 Hs1 Hns1 Hs2 Hns2 Hle).
Qed.

(** ** Vector initialisation: what the loop stores and draws *)

Section InitLemmas.
Context {S : Type} (rand : S -> Z * S).

Lemma run_init_cons (arr i : Z) (ord : list Z) (m : mem) (s : S) :
  run_init rand arr (i :: ord) (m, s)
  = let '(v, s1) := rand s in run_init rand arr ord (upd m (arr + i) (of_int v), s1).
Proof.
  unfold run_init. cbn [fold_left].
  replace (init_body rand arr (m, s) i)
    with (let '(v, s1) := rand s in (upd m (arr + i) (of_int v), s1)) by reflexivity.
  destruct (rand s). reflexivity.
Qed.

Lemma run_init_frame (arr : Z) (ord : list Z) (m : mem) (s : S) (b : Z) :
  (forall j, In j ord -> b <> arr + j) -> fst (run_init rand arr ord (m, s)) b = m b.
Proof.
  revert m s. induction ord as [|i ord IH]; intros m s Hb; [reflexivity|].
  rewrite run_init_cons. destruct (rand s) as [v s1].
  rewrite IH by (intros j Hj; apply Hb; now right).
  unfold upd. destruct (Z.eqb_spec b (arr + i)); [|reflexivity].
  exfalso. apply (Hb i); [now left | exact e].
Qed.

Lemma run_init_draws (arr : Z) (ord : list Z) (m : mem) (s : S) :
  NoDup ord ->
  map (fun i => fst (run_init rand arr ord (m, s)) (arr + i)) ord
  = map of_int (fst (draws rand (length ord) s))
  /\ snd (run_init rand arr ord (m, s)) = snd (draws rand (length ord) s).
Proof.
  revert m s. induction ord as [|i ord IH]; intros m s Hnd; [split; reflexivity|].
  inversion Hnd as [|? ? Hni Hnd']; subst.
  rewrite run_init_cons. cbn [length draws]. destruct (rand s) as [v s1].
  destruct (IH (upd m (arr + i) (of_int v)) s1 Hnd') as [Hm Hs].
  destruct (draws rand (length ord) s1) as [vs s2]. cbn [fst snd map] in *.
  split; [|exact Hs].
  rewrite Hm. f_equal.
  rewrite run_init_frame.
  - unfold upd. now rewrite Z.eqb_refl.
  - intros j Hj Heq. apply Hni. replace i with j by lia. exact Hj.
Qed.

(** [initialize_array] writes nothing outside [arr[0..n)]. *)
Lemma init_frame (arr n threads : Z) (st st' : mem * S) :
  initialize_array rand arr n threads st st' ->
  forall b, ~ (arr <= b < arr + n) -> fst st' b = fst st b.
Proof.
  intros [ord [Hp ->]] b Hb. destruct st as [m s].
  apply run_init_frame. intros j Hj.
  apply (Permutation_in _ Hp), static_blocks_in in Hj. lia.
Qed.

(** With at least one thread, [initialize_array] stores [n] successive
    values of [rand], in the order of some rearrangement of [[0, n)]. *)
Lemma init_draws (arr n threads : Z) (m m' : mem) (s s' : S) :
  1 <= threads ->
  initialize_array rand arr n threads (m, s) (m', s') ->
  exists ord, Permutation ord (zseq 0 n)
    /\ map (fun i => m' (arr + i)) ord = map of_int (fst (draws rand (Z.to_nat n) s))
    /\ s' = snd (draws rand (Z.to_nat n) s).
Proof.
  intros Ht [ord [Hp Heq]].
  rewrite concat_static_blocks, zseq_max0 in Hp by exact Ht.
  assert (Hnd : NoDup ord) by apply (Permutation_NoDup (Permutation_sym Hp)), NoDup_zseq.
  assert (Hl : length ord = Z.to_nat n) by (rewrite (Permutation_length Hp); apply zseq_length).
  destruct (run_init_draws arr ord m s Hnd) as [Hm Hs].
  rewrite <- Heq, Hl in *. cbn [fst snd] in *.
  exists ord. auto.
Qed.

Lemma draws_add (k1 k2 : nat) (s : S) :
  draws rand (k1 + k2) s
  = let '(l1, s1) := draws rand k1 s in
    let '(l2, s2) := draws rand k2 s1 in (l1 ++ l2, s2).
Proof.
  revert s. induction k1 as [|k1 IH]; intros s.
  - cbn. destruct (draws rand k2 s). reflexivity.
  - cbn [Nat.add draws]. destruct (rand s) as [v s1]. rewrite IH.
    destruct (draws rand k1 s1) as [l1 t1]. destruct (draws rand k2 t1). reflexivity.
Qed.

Lemma draws_bound (k : nat) (s : S) (v : Z) :
  (forall s, 0 <= fst (rand s) <= RAND_MAX) ->
  In v (fst (draws rand k s)) -> 0 <= v <= RAND_MAX.
Proof.
  intros Hr. revert s. induction k as [|k IH]; intros s; cbn [draws]; [intros []|].
  pose proof (Hr s) as Hv. destruct (rand s) as [v0 s1]. cbn [fst] in Hv.
  destruct (draws rand k s1) as [vs s2] eqn:E. cbn [fst]. intros [<- | Hin]; [exact Hv|].
  apply (IH s1). rewrite E. exact Hin.
Qed.
End InitLemmas.

(** Pairing a list with the values another map gives its elements. *)
Lemma map_combine_values {A B C D : Type} (l : list A) (ws : list B)
    (f : A -> C) (h : B -> C) (g : A -> C -> D) :
  map f l = map h ws ->
  map (fun i => g i (f i)) l = map (fun '(i, w) => g i (h w)) (combine l ws).
Proof.
  revert ws. induction l as [|i l IH]; intros [|w ws] H; try discriminate; [reflexivity|].
  cbn in H |- *. injection H as H1 H2. rewrite H1, (IH ws H2). reflexivity.
Qed.

(** ** More on the timing code *)

Lemma pos_or_zero_nonneg (f : double) : pos_or_zero f -> nonneg f = true.
Proof. intros [->|(m & e & ->)]; reflexivity. Qed.

(** [(double) d / 1000000.0] is the rounding of [d / 10^6] for
    [0 <= d < 2^53]. *)
Lemma div_1e6_approx (d : Z) :
  0 <= d < 2 ^ 53 -> approx (IZR d / 1000000) (ddiv (of_int d) (of_int 1000000)).
Proof.
  intros Hd. unfold ddiv. destruct (Z.eq_dec d 0) as [->|Hd0].
  - left. split; [unfold Rdiv; ring | reflexivity].
  - right. split; [apply Rdiv_lt_0_compat; [apply IZR_lt; lia | lra]|].
    destruct (of_int_rounds_to d ltac:(lia)) as [Hr1 Hv1].
    destruct (rounds_to_digits _ _ Hr1) as (m1 & e1 & E1 & D1).
    rewrite E1 in Hv1 |- *. rewrite of_int_1000000.
    pose proof (mant_val_bounds m1 e1) as [B1 B2].
    rewrite D1 in B1, B2. rewrite <- val_pos_finite, Hv1 in B1, B2.
    assert (0 < 53 + e1).
    { apply p2_lt_inv. rewrite p2_0. apply Rle_lt_trans with (IZR d); [|lra].
      apply IZR_le. lia. }
    assert (e1 + 52 < 53).
    { replace (53 + e1 - 1) with (e1 + 52) in B1 by lia.
      apply p2_lt_inv. apply Rle_lt_trans with (IZR d); [exact B1|].
      rewrite <- p2_IZR by lia. apply IZR_lt. lia. }
    replace (IZR d / 1000000)%R
      with (val (S754_finite false m1 e1) / val (S754_finite false 8589934592000000 (-33)))%R.
    + apply div_rounds_to; [exact D1 | reflexivity | lia].
    + rewrite <- of_int_1000000, (proj2 (of_int_rounds_to 1000000 ltac:(lia))), Hv1.
      reflexivity.
Qed.

(** Rounding to nearest is off by at most half an ulp, [x * 2^-53]. *)
Lemma rounds_to_err (x : R) (f : double) :
  rounds_to x f -> (Rabs (val f - x) <= x * p2 (-53))%R.
Proof.
  intros Hr. destruct (rounds_to_val _ _ Hr) as (k & N & [Hx1 Hx2] & HN & _ & ->).
  pose proof (p2_pos (k - 53)) as Hp.
  assert (Hsc : (x = (x / p2 (k - 53)) * p2 (k - 53))%R) by (field; lra).
  assert (Hd : (Rabs (IZR N - x / p2 (k - 53)) <= / 2)%R).
  { apply Rabs_le. destruct HN as [HN | [[HN|HN] _]]; lra. }
  assert (Hhalf : (/ 2 * p2 (k - 53) <= x * p2 (-53))%R).
  { replace (/ 2 * p2 (k - 53))%R with (p2 (k - 1) * p2 (-53))%R.
    - apply Rmult_le_compat_r; [left; apply p2_pos | exact Hx1].
    - rewrite <- p2_add. replace (k - 53) with ((k - 1 - 53) + 1) by lia.
      rewrite (p2_add (k - 1 - 53) 1), p2_1. replace (k - 1 + -53) with (k - 1 - 53) by lia.
      field. }
  replace (IZR N * p2 (k - 53) - x)%R with ((IZR N - x / p2 (k - 53)) * p2 (k - 53))%R
    by (field; lra).
  rewrite Rabs_mult, (Rabs_right (p2 (k - 53))) by lra.
  apply Rle_trans with (/ 2 * p2 (k - 53))%R; [|exact Hhalf].
  apply Rmult_le_compat_r; lra.
Qed.

Lemma approx_err (x : R) (f : double) :
  approx x f -> (Rabs (val f - x) <= x * p2 (-53))%R.
Proof.
  intros [[-> ->]|[_ H]]; [cbn [val]; rewrite Rminus_0_r, Rabs_R0; lra|].
  exact (rounds_to_err _ _ H).
Qed.

Lemma Rabs_bounds (x y : R) : (Rabs x <= y -> - y <= x <= y)%R.
Proof.
  intros H. pose proof (Rle_abs x). pose proof (Rle_abs (- x)).
  rewrite Rabs_Ropp in *. lra.
Qed.

(** Two positive doubles holding integers below [2^53]: their difference
    is exact. *)
Lemma sub_int_exact (F G : double) (K1 K2 : Z) :
  pos_or_zero F -> pos_or_zero G -> val F = IZR K1 -> val G = IZR K2 ->
  0 <= K2 <= K1 -> K1 < 2 ^ 53 ->
  val (SFsub 53 1024 F G) = IZR (K1 - K2).
Proof.
  intros [->|(m1 & e1 & ->)] [->|(m2 & e2 & ->)] V1 V2 HK HK1.
  - cbn [val] in V1, V2. apply eq_IZR in V1. apply eq_IZR in V2.
    subst. reflexivity.
  - exfalso. rewrite val_pos_finite in V2. cbn [val] in V1. apply eq_IZR in V1.
    pose proof (p2_pos e2). assert (0 < IZR (Zpos m2))%R by (apply IZR_lt; lia).
    assert (0 < IZR (Zpos m2) * p2 e2)%R by (apply Rmult_lt_0_compat; lra).
    assert (K2 <= 0) by lia. assert (IZR K2 <= 0)%R by (apply IZR_le; lia). lra.
  - cbn [val] in V2. apply eq_IZR in V2. subst K2.
    cbn [SFsub]. rewrite V1, Z.sub_0_r. reflexivity.
  - rewrite !val_pos_finite in V1, V2.
    rewrite <- (shl_align_val m1 e1 (Z.min e1 e2)) in V1 by lia.
    rewrite <- (shl_align_val m2 e2 (Z.min e1 e2)) in V2 by lia.
    unfold SFsub, cond_Zopp. cbv beta iota zeta.
    set (a := fst (shl_align m1 e1 (Z.min e1 e2))) in *.
    set (b := fst (shl_align m2 e2 (Z.min e1 e2))) in *.
    set (ez := Z.min e1 e2) in *.
    assert (Hd : (IZR (Zpos a - Zpos b) * p2 ez = IZR (K1 - K2))%R)
      by (rewrite !minus_IZR, <- V1, <- V2; ring).
    unfold binary_normalize.
    destruct (Zpos a - Zpos b) as [|p|p] eqn:Ed.
    + cbn [val]. rewrite <- Hd. ring.
    + assert (HK0 : 0 < K1 - K2).
      { apply lt_IZR. rewrite <- Hd. apply Rmult_lt_0_compat; [apply IZR_lt; lia | apply p2_pos]. }
      apply rounds_to_int; [lia|]. rewrite <- Hd.
      apply binary_round_val. rewrite Hd. split.
      * apply Rle_trans with (p2 0); [apply p2_le; lia|].
        rewrite p2_0. apply IZR_le. lia.
      * apply Rlt_le_trans with (p2 53); [|apply p2_le; lia].
        rewrite <- p2_IZR by lia. apply IZR_lt. lia.
    + exfalso. assert (Hn : (IZR (Zneg p) * p2 ez < 0)%R).
      { pose proof (p2_pos ez). assert (IZR (Zneg p) < 0)%R by (apply IZR_lt; lia). nra. }
      assert (IZR (K1 - K2) >= 0)%R by (apply Rle_ge, IZR_le; lia). lra.
Qed.

(** Whole seconds convert exactly: [nsec_ms 0] is [+0]. *)
Lemma ts_to_ms_whole (s : Z) :
  0 <= s < 2 ^ 43 ->
  pos_or_zero (ts_to_ms (mk_timespec s 0)) /\ val (ts_to_ms (mk_timespec s 0)) = IZR (1000 * s).
Proof.
  intros Hs. destruct (sec_ms_spec s Hs) as [HA VA].
  rewrite ts_to_ms_split. change (nsec_ms 0) with (S754_zero false).
  destruct (approx_shape _ _ HA) as [E|(m & e & E)]; rewrite E in *; cbn [SFadd].
  - split; [left; reflexivity | exact VA].
  - split; [right; eauto | exact VA].
Qed.

(** C1: for [n >= 0], [threads >= 1], any [a] and separate buffers [x] and
    [y] of length [n], any run of [calculate_daxpy] and any run of
    [calculate_daxpy_dynamic] both give the sequential loop's result, in
    which [y[i]] is [old y[i] + x[i]*a] for every [i] in [[0, n)]; the two
    outputs are equal doubles at every address. *)
Theorem kernels_match_sequential (x y : Z) (a : double) (n threads : Z)
    (m m_static m_dynamic : mem) :
  0 <= n -> 1 <= threads ->
  x + n <= y \/ y + n <= x ->
  calculate_daxpy x y a n threads m m_static ->
  calculate_daxpy_dynamic x y a n threads m m_dynamic ->
  (forall b, m_static b = daxpy_seq x y a n m b)
  /\ (forall b, m_dynamic b = daxpy_seq x y a n m b)
  /\ (forall i, 0 <= i < n ->
        m_static (y + i) = dadd (m (y + i)) (dmul (m (x + i)) a)
        /\ m_dynamic (y + i) = dadd (m (y + i)) (dmul (m (x + i)) a))
  /\ (forall b, m_static b = m_dynamic b).
Proof.
  intros Hn Ht Hsep Hs Hd.
  pose proof (calculate_daxpy_result _ _ _ _ _ _ _ Ht Hsep Hs) as Rs.
  pose proof (calculate_daxpy_dynamic_result _ _ _ _ _ _ _ Hsep Hd) as Rd.
  pose proof (daxpy_seq_result x y a n m Hsep) as Rq.
  assert (Hpt : forall i, 0 <= i < n ->
            daxpy_result x y a n m (y + i) = dadd (m (y + i)) (dmul (m (x + i)) a)).
  { intros i Hi. unfold daxpy_result.
    destruct (Z.leb_spec y (y + i)), (Z.ltb_spec (y + i) (y + n)); try lia.
    simpl. repeat f_equal. lia. }
  split; [|split; [|split]].
  - intros b. now rewrite Rs, Rq.
  - intros b. now rewrite Rd, Rq.
  - intros i Hi. rewrite Rs, Rd. split; now apply Hpt.
  - intros b. now rewrite Rs, Rd.
Qed.

Lemma kernels_match_sequential_witness :
  let m : mem := fun b => of_int b in
  let a := of_int 3 in
  let ms := run_daxpy 0 10 a (concat (static_blocks 3 2)) m in
  let md := run_daxpy 0 10 a (rev (concat (dynamic_chunks 100 3))) m in
  calculate_daxpy 0 10 a 3 2 m ms /\ calculate_daxpy_dynamic 0 10 a 3 2 m md
  /\ (forall b, ms b = md b).
Proof.
  intros m a ms md.
  assert (Hs : calculate_daxpy 0 10 a 3 2 m ms).
  { exists (concat (static_blocks 3 2)). split; [apply Permutation_refl | reflexivity]. }
  assert (Hd : calculate_daxpy_dynamic 0 10 a 3 2 m md).
  { exists (rev (concat (dynamic_chunks 100 3))).
    split; [apply Permutation_sym, Permutation_rev | reflexivity]. }
  split; [exact Hs | split; [exact Hd |]].
  apply (kernels_match_sequential 0 10 a 3 2 m ms md); [lia | lia | lia | exact Hs | exact Hd].
Defined.

(** C2: the dynamic kernel, whose iterations come in chunks of 100
    consecutive indices run in any order by any thread, leaves the same
    memory as the static kernel, for any thread counts; for [n = 250] the
    chunks are [[0,100)], [[100,200)] and [[200,250)]. *)
Theorem dynamic_equals_static (x y : Z) (a : double) (n threads threads' : Z)
    (m m_static m_dynamic : mem) :
  1 <= threads ->
  x + n <= y \/ y + n <= x ->
  calculate_daxpy x y a n threads m m_static ->
  calculate_daxpy_dynamic x y a n threads' m m_dynamic ->
  (forall b, m_static b = m_dynamic b)
  /\ dynamic_chunks 100 250 = [zseq 0 100; zseq 100 100; zseq 200 50].
Proof.
  intros Ht Hsep Hs Hd. split.
  - intros b. rewrite (calculate_daxpy_result _ _ _ _ _ _ _ Ht Hsep Hs b).
    now rewrite (calculate_daxpy_dynamic_result _ _ _ _ _ _ _ Hsep Hd b).
  - vm_compute. reflexivity.
Qed.

Lemma dynamic_equals_static_witness :
  let m : mem := fun b => of_int (2 * b) in
  let a := of_int 7 in
  let ms := run_daxpy 0 300 a (concat (static_blocks 250 2)) m in
  let md := run_daxpy 0 300 a
              (concat (rev (dynamic_chunks 100 250))) m in
  calculate_daxpy 0 300 a 250 2 m ms /\ calculate_daxpy_dynamic 0 300 a 250 2 m md
  /\ (forall b, ms b = md b).
Proof.
  intros m a ms md.
  assert (Hs : calculate_daxpy 0 300 a 250 2 m ms).
  { exists (concat (static_blocks 250 2)). split; [apply Permutation_refl | reflexivity]. }
  assert (Hd : calculate_daxpy_dynamic 0 300 a 250 2 m md).
  { exists (concat (rev (dynamic_chunks 100 250))). split; [|reflexivity].
    apply Permutation_concat_rev. }
  split; [exact Hs | split; [exact Hd |]].
  apply (dynamic_equals_static 0 300 a 250 2 2 m ms md); [lia | lia | exact Hs | exact Hd].
Defined.

(** C6: both kernels write only [y[0..n)]: every other cell, in particular
    every cell of a separate buffer [x[0..n)], keeps its value ([a] is
    passed by value and cannot change). *)
Theorem kernels_write_only_y (x y : Z) (a : double) (n threads : Z)
    (m m_static m_dynamic : mem) :
  calculate_daxpy x y a n threads m m_static ->
  calculate_daxpy_dynamic x y a n threads m m_dynamic ->
  (forall b, ~ (y <= b < y + n) -> m_static b = m b /\ m_dynamic b = m b)
  /\ (x + n <= y \/ y + n <= x ->
      forall i, 0 <= i < n -> m_static (x + i) = m (x + i) /\ m_dynamic (x + i) = m (x + i)).
Proof.
  intros Hs Hd.
  assert (F : forall b, ~ (y <= b < y + n) -> m_static b = m b /\ m_dynamic b = m b).
  { intros b Hb. split.
    - exact (parallel_run_frame _ _ _ _ n _ _ (static_blocks_in n threads) Hs b Hb).
    - exact (parallel_run_frame _ _ _ _ n _ _ (dynamic_chunks_in n) Hd b Hb). }
  split; [exact F|]. intros Hsep i Hi. apply F. lia.
Qed.

Lemma kernels_write_only_y_witness :
  let m : mem := fun b => of_int b in
  let a := of_int 5 in
  let ms := run_daxpy 0 4 a (concat (static_blocks 4 3)) m in
  let md := run_daxpy 0 4 a (concat (dynamic_chunks 100 4)) m in
  calculate_daxpy 0 4 a 4 3 m ms /\ calculate_daxpy_dynamic 0 4 a 4 3 m md
  /\ (forall i, 0 <= i < 4 -> ms (0 + i) = m (0 + i) /\ md (0 + i) = m (0 + i)).
Proof.
  intros m a ms md.
  assert (Hs : calculate_daxpy 0 4 a 4 3 m ms).
  { exists (concat (static_blocks 4 3)). split; [apply Permutation_refl | reflexivity]. }
  assert (Hd : calculate_daxpy_dynamic 0 4 a 4 3 m md).
  { exists (concat (dynamic_chunks 100 4)). split; [apply Permutation_refl | reflexivity]. }
  split; [exact Hs | split; [exact Hd |]].
  apply (kernels_write_only_y 0 4 a 4 3 m ms md Hs Hd). lia.
Defined.

(** C7: the thread count does not change the result: two runs of the same
    kernel with thread counts [t1, t2 >= 1] on the same memory agree at
    every address, for both kernels. *)
Theorem kernels_independent_of_threads (x y : Z) (a : double) (n t1 t2 : Z)
    (m m1 m2 m3 m4 : mem) :
  1 <= t1 -> 1 <= t2 ->
  x + n <= y \/ y + n <= x ->
  calculate_daxpy x y a n t1 m m1 -> calculate_daxpy x y a n t2 m m2 ->
  calculate_daxpy_dynamic x y a n t1 m m3 -> calculate_daxpy_dynamic x y a n t2 m m4 ->
  (forall b, m1 b = m2 b) /\ (forall b, m3 b = m4 b).
Proof.
  intros H1 H2 Hsep Hs1 Hs2 Hd1 Hd2. split; intros b.
  - rewrite (calculate_daxpy_result _ _ _ _ _ _ _ H1 Hsep Hs1 b).
    now rewrite (calculate_daxpy_result _ _ _ _ _ _ _ H2 Hsep Hs2 b).
  - rewrite (calculate_daxpy_dynamic_result _ _ _ _ _ _ _ Hsep Hd1 b).
    now rewrite (calculate_daxpy_dynamic_result _ _ _ _ _ _ _ Hsep Hd2 b).
Qed.

Lemma kernels_independent_of_threads_witness :
  let m : mem := fun b => of_int (b * b) in
  let a := of_int 2 in
  let m1 := run_daxpy 0 20 a (concat (static_blocks 10 1)) m in
  let m2 := run_daxpy 0 20 a (concat (static_blocks 10 8)) m in
  let m3 := run_daxpy 0 20 a (concat (dynamic_chunks 100 10)) m in
  let m4 := run_daxpy 0 20 a (rev (concat (dynamic_chunks 100 10))) m in
  calculate_daxpy 0 20 a 10 1 m m1 /\ calculate_daxpy 0 20 a 10 8 m m2
  /\ calculate_daxpy_dynamic 0 20 a 10 1 m m3 /\ calculate_daxpy_dynamic 0 20 a 10 8 m m4
  /\ (forall b, m1 b = m2 b) /\ (forall b, m3 b = m4 b).
Proof.
  intros m a m1 m2 m3 m4.
  assert (Hs1 : calculate_daxpy 0 20 a 10 1 m m1).
  { exists (concat (static_blocks 10 1)). split; [apply Permutation_refl | reflexivity]. }
  assert (Hs2 : calculate_daxpy 0 20 a 10 8 m m2).
  { exists (concat (static_blocks 10 8)). split; [apply Permutation_refl | reflexivity]. }
  assert (Hd : calculate_daxpy_dynamic 0 20 a 10 1 m m3).
  { exists (concat (dynamic_chunks 100 10)). split; [apply Permutation_refl | reflexivity]. }
  assert (Hd8 : calculate_daxpy_dynamic 0 20 a 10 8 m m4).
  { exists (rev (concat (dynamic_chunks 100 10))).
    split; [apply Permutation_sym, Permutation_rev | reflexivity]. }
  do 4 (split; [assumption|]).
  exact (kernels_independent_of_threads 0 20 a 10 1 8 m m1 m2 m3 m4
           ltac:(lia) ltac:(lia) ltac:(lia) Hs1 Hs2 Hd Hd8).
Defined.




(** ** Claims about the trial loop *)

(** C3 as stated fails: a vector length of [-5] is not the sentinel, so it
    reaches [malloc], [initialize_array] and the kernel. *)
Lemma negative_length_reaches_allocation :
  ~ (forall inp e k, In e (fst (main_loop inp)) -> step_size e = Some k -> 0 <= k).
Proof.
  intros H.
  assert (Hin : In (EvAlloc BufX (-5)) (fst (main_loop [(0, 1, -5); (0, 1, -1)]))).
  { simpl. tauto. }
  pose proof (H _ _ (-5) Hin eq_refl). lia.
Qed.

Lemma trial_events_size (mode threads n : Z) (e : event) (k : Z) :
  In e (trial_events mode threads n) -> step_size e = Some k -> k = n /\ n <> -1.
Proof.
  unfold trial_events. destruct (Z.eqb_spec n (-1)); simpl;
    intros Hin Hs; repeat destruct Hin as [<- | Hin]; simpl in Hs;
    try discriminate; try contradiction; injection Hs; intros; subst; auto.
Qed.

(** C3 (amended): every allocation, initialisation and kernel call of a
    session comes from a pass that is reached (every pass before it read a
    length other than [-1]) and uses the vector length that this pass read
    at its third prompt, which is not the sentinel [-1]; a pass reading any
    other length, negative ones such as [-5] included, allocates [x] and
    [y], initialises both and runs the kernel with that length. *)
Theorem sentinel_never_allocated :
  (forall (inp : list (Z * Z * Z)) (e : event) (k : Z),
     In e (fst (main_loop inp)) -> step_size e = Some k ->
     k <> -1
     /\ exists pre mode threads rest,
          inp = pre ++ (mode, threads, k) :: rest
          /\ Forall (fun '(_, _, n) => n <> -1) pre
          /\ In e (trial_events mode threads k))
  /\ (forall (mode threads n : Z) (rest : list (Z * Z * Z)),
        n <> -1 ->
        incl [EvAlloc BufX n; EvAlloc BufY n; EvInit BufX n threads; EvInit BufY n threads;
              EvKernel (if mode =? 0 then Static else Dynamic) n threads]
             (fst (main_loop ((mode, threads, n) :: rest)))).
Proof.
  split.
  - intros inp e k. induction inp as [|[[mode threads] n] rest IH]; cbn [main_loop fst]; [intros []|].
    destruct (Z.eqb_spec n (-1)) as [Hn|Hn]; cbn [negb fst].
    + rewrite in_app_iff. intros [Hin | [<- | []]] Hs; [|discriminate].
      destruct (trial_events_size mode threads n e k Hin Hs). congruence.
    + destruct (main_loop rest) as [tr code] eqn:Er. cbn [fst] in *.
      rewrite in_app_iff. intros [Hin | Hin] Hs.
      * destruct (trial_events_size mode threads n e k Hin Hs) as [-> Hk].
        split; [exact Hk|]. exists [], mode, threads, rest.
        split; [reflexivity|]. split; [constructor | exact Hin].
      * destruct (IH Hin Hs) as [Hk (pre & md & t & rest' & -> & Hpre & He)].
        split; [exact Hk|]. exists ((mode, threads, n) :: pre), md, t, rest'.
        split; [reflexivity|]. split; [constructor; assumption | exact He].
  - intros mode threads n rest Hn e He. cbn [main_loop]. unfold trial_events.
    rewrite (proj2 (Z.eqb_neq n (-1)) Hn). cbn [negb].
    destruct (main_loop rest) as [tr code]. cbn [fst app].
    cbn [In] in He |- *. intuition (subst; auto 20).
Qed.

Lemma sentinel_never_allocated_witness :
  In (EvAlloc BufY (-5)) (fst (main_loop [(0, 1, -5); (0, 1, -1)]))
  /\ (-5) <> -1
  /\ In (EvKernel Dynamic (-5) 3) (fst (main_loop [(1, 3, -5); (0, 1, -1)])).
Proof.
  assert (Hin : In (EvAlloc BufY (-5)) (fst (main_loop [(0, 1, -5); (0, 1, -1)]))).
  { simpl. tauto. }
  destruct sentinel_never_allocated as [H1 H2].
  split; [exact Hin|]. split; [exact (proj1 (H1 _ _ (-5) Hin eq_refl))|].
  apply (H2 1 3 (-5) [(0, 1, -1)] ltac:(lia)). cbn. tauto.
Defined.

(** C4 as stated fails: [initialize_scalar] runs before the vectors are
    allocated and initialised, not after both [initialize_array] calls. *)
Lemma scalar_drawn_before_initialisation :
  ~ (forall mode threads n pre post,
       n <> -1 ->
       trial_events mode threads n = pre ++ EvScalar :: post ->
       In (EvInit BufX n threads) pre /\ In (EvInit BufY n threads) pre).
Proof.
  intros H.
  destruct (H 0 1 5
              [EvPromptMode; EvScanMode 0; EvPromptThreads; EvScanThreads 1;
               EvPromptSize; EvScanSize 5]
              [EvAlloc BufX 5; EvAlloc BufY 5; EvInit BufX 5 1; EvInit BufY 5 1;
               EvClockBegin; EvWallStart; EvKernel Static 5 1; EvClockEnd;
               EvWallFinish; EvReport; EvFree BufX; EvFree BufY]
              ltac:(lia) eq_refl) as [Hx _].
  simpl in Hx. repeat destruct Hx as [Hx | Hx]; discriminate || contradiction.
Qed.

(** C4 (amended): a pass that does not read [-1] does, in this order: the
    three prompts and reads, [initialize_scalar] once, allocation of [x] then
    [y], [initialize_array] on [x] then [y], the start of both clocks, the
    kernel chosen by the mode, the end of both clocks, the report, and the
    release of [x] then [y]; then the next pass starts. *)
Theorem trial_step_order (mode threads n : Z) (rest : list (Z * Z * Z)) :
  n <> -1 ->
  fst (main_loop ((mode, threads, n) :: rest))
  = [EvPromptMode; EvScanMode mode; EvPromptThreads; EvScanThreads threads;
     EvPromptSize; EvScanSize n;
     EvScalar; EvAlloc BufX n; EvAlloc BufY n;
     EvInit BufX n threads; EvInit BufY n threads;
     EvClockBegin; EvWallStart;
     EvKernel (if mode =? 0 then Static else Dynamic) n threads;
     EvClockEnd; EvWallFinish; EvReport; EvFree BufX; EvFree BufY]
    ++ fst (main_loop rest).
Proof.
  intros Hn. cbn [main_loop]. unfold trial_events.
  destruct (Z.eqb_spec n (-1)) as [E|E]; [contradiction|].
  cbn [negb]. destruct (main_loop rest) as [tr code]. reflexivity.
Qed.

Lemma trial_step_order_witness :
  fst (main_loop [(1, 2, 250); (0, 4, -1)])
  = [EvPromptMode; EvScanMode 1; EvPromptThreads; EvScanThreads 2;
     EvPromptSize; EvScanSize 250;
     EvScalar; EvAlloc BufX 250; EvAlloc BufY 250;
     EvInit BufX 250 2; EvInit BufY 250 2;
     EvClockBegin; EvWallStart; EvKernel Dynamic 250 2;
     EvClockEnd; EvWallFinish; EvReport; EvFree BufX; EvFree BufY]
    ++ fst (main_loop [(0, 4, -1)]).
Proof.
  exact (trial_step_order 1 2 250 [(0, 4, -1)] ltac:(lia)).
Defined.

(** C5: when the vector-length prompt of a pass reads [-1], after any
    passes that did not, the session ends there, whatever the mode and
    thread count read before it and whatever input follows: that pass
    allocates nothing and runs no kernel, the farewell line is printed last
    and [main] returns [0]. *)
Theorem sentinel_ends_session (pre : list (Z * Z * Z)) (mode threads : Z)
    (rest : list (Z * Z * Z)) :
  Forall (fun '(_, _, n) => n <> -1) pre ->
  main_loop (pre ++ (mode, threads, -1) :: rest)
  = (trials_events pre
     ++ [EvPromptMode; EvScanMode mode; EvPromptThreads; EvScanThreads threads;
         EvPromptSize; EvScanSize (-1); EvGoodbye], Some 0).
Proof.
  induction pre as [|[[md t] n] pre IH]; intros Hpre.
  - reflexivity.
  - inversion Hpre as [|? ? Hn Hpre']; subst.
    simpl app. cbn [main_loop]. destruct (Z.eqb_spec n (-1)) as [E|E]; [contradiction|].
    cbn [negb]. rewrite (IH Hpre'). cbv beta iota.
    assert (Ef : (n =? -1) = false) by (apply Z.eqb_neq; exact E).
    unfold trials_events, trial_events. rewrite Ef. reflexivity.
Qed.

Lemma sentinel_ends_session_witness :
  main_loop ([(0, 2, 3)] ++ (7, 0, -1) :: [(1, 1, 1)])
  = (trials_events [(0, 2, 3)]
     ++ [EvPromptMode; EvScanMode 7; EvPromptThreads; EvScanThreads 0;
         EvPromptSize; EvScanSize (-1); EvGoodbye], Some 0).
Proof.
  apply (sentinel_ends_session [(0, 2, 3)] 7 0 [(1, 1, 1)]).
  constructor; [lia | constructor].
Defined.

(** ** Claims about the timer *)

(** C8 as stated fails: with [tv_sec] around [3.9 * 10^14] the product
    [tv_sec * 1000.0] is rounded to a multiple of [64], so one nanosecond
    before a second boundary converts to a larger double than the boundary
    itself, and the wall time is [-64] ms. *)
Lemma wall_time_negative_for_huge_seconds :
  ~ (forall start finish,
       valid_timespec start -> valid_timespec finish -> ts_le start finish ->
       nonneg (wall_time start finish) = true).
Proof.
  intros H.
  assert (Hv : nonneg (wall_time (mk_timespec 389885776469673 999999999)
                                 (mk_timespec 389885776469674 0)) = false)
    by (vm_compute; reflexivity).
  rewrite H in Hv; [discriminate | | | ].
  - unfold valid_timespec. simpl. lia.
  - unfold valid_timespec. simpl. lia.
  - left. simpl. lia.
Qed.

(** C8 (amended): for timestamps as [clock_gettime] fills them, with
    [0 <= tv_sec < 2^43] (about 278,000 years of seconds) and [finish] not
    earlier than [start], the wall time [ts_to_ms(finish) - ts_to_ms(start)]
    is [>= 0]. *)
Theorem wall_time_nonneg (start finish : timespec) :
  valid_timespec start -> valid_timespec finish ->
  0 <= tv_sec start < 2 ^ 43 -> 0 <= tv_sec finish < 2 ^ 43 ->
  ts_le start finish ->
  nonneg (wall_time start finish) = true.
Proof.
  destruct start as [s1 ns1], finish as [s2 ns2].
  unfold valid_timespec, ts_le, nonneg, dleb, wall_time, dsub. cbn [tv_sec tv_nsec].
  intros Hns1 Hns2 Hs1 Hs2 Hle.
  change (of_int 0) with (S754_zero false).
  apply ms_sub_nonneg; lia.
Qed.

Lemma wall_time_nonneg_witness :
  valid_timespec (mk_timespec 5 999999999) /\ valid_timespec (mk_timespec 6 0)
  /\ ts_le (mk_timespec 5 999999999) (mk_timespec 6 0)
  /\ nonneg (wall_time (mk_timespec 5 999999999) (mk_timespec 6 0)) = true.
Proof.
  assert (H1 : valid_timespec (mk_timespec 5 999999999)) by (unfold valid_timespec; simpl; lia).
  assert (H2 : valid_timespec (mk_timespec 6 0)) by (unfold valid_timespec; simpl; lia).
  assert (H3 : ts_le (mk_timespec 5 999999999) (mk_timespec 6 0)) by (unfold ts_le; simpl; lia).
  split; [exact H1|]. split; [exact H2|]. split; [exact H3|].
  apply (wall_time_nonneg _ _ H1 H2); [cbn [tv_sec]; lia | cbn [tv_sec]; lia | exact H3].
Defined.

(** C9: [ts_to_ms] is [(double) tv_sec * 1000 + (double) tv_nsec / 1000000]
    and the reported wall time converts each timestamp on its own before
    subtracting the start from the finish. *)
Theorem ts_to_ms_as_specified (start finish : timespec) :
  ts_to_ms start = ms_as_specified start
  /\ ts_to_ms finish = ms_as_specified finish
  /\ wall_time start finish = elapsed_as_specified start finish.
Proof. repeat split. Qed.

(** ** Further properties of the code *)



(** With at least one thread, [initialize_array] calls [rand] exactly [n]
    times: the cells [arr[0..n)] receive the next [n] values of the
    generator, converted to double, in the order in which the threads reach
    them (some rearrangement of [[0, n)]), and the generator ends in the
    state after those [n] draws. *)
Theorem initialize_array_draws {S : Type} (rand : S -> Z * S) (arr n threads : Z)
    (m m' : mem) (s s' : S) :
  1 <= threads ->
  initialize_array rand arr n threads (m, s) (m', s') ->
  exists ord, Permutation ord (zseq 0 n)
    /\ map (fun i => m' (arr + i)) ord = map of_int (fst (draws rand (Z.to_nat n) s))
    /\ s' = snd (draws rand (Z.to_nat n) s).
Proof.
  intros Ht H. exact (init_draws rand arr n threads m m' s s' Ht H).
Qed.

Lemma initialize_array_draws_witness :
  1 <= 2
  /\ initialize_array sample_rand 10 3 2 ((fun _ : Z => of_int 0), 1)
       (fst (run_init sample_rand 10 [0; 1; 2] ((fun _ : Z => of_int 0), 1)),
        snd (run_init sample_rand 10 [0; 1; 2] ((fun _ : Z => of_int 0), 1)))
  /\ exists ord, Permutation ord (zseq 0 3)
       /\ map (fun i => fst (run_init sample_rand 10 [0; 1; 2] ((fun _ : Z => of_int 0), 1)) (10 + i)) ord
          = map of_int (fst (draws sample_rand (Z.to_nat 3) 1))
       /\ snd (run_init sample_rand 10 [0; 1; 2] ((fun _ : Z => of_int 0), 1))
          = snd (draws sample_rand (Z.to_nat 3) 1).
Proof.
  assert (H : initialize_array sample_rand 10 3 2 ((fun _ : Z => of_int 0), 1)
       (fst (run_init sample_rand 10 [0; 1; 2] ((fun _ : Z => of_int 0), 1)),
        snd (run_init sample_rand 10 [0; 1; 2] ((fun _ : Z => of_int 0), 1)))).
  { exists [0; 1; 2]. split; [vm_compute; apply Permutation_refl | apply surjective_pairing]. }
  split; [lia|]. split; [exact H|].
  exact (initialize_array_draws sample_rand 10 3 2 _ _ 1 _ ltac:(lia) H).
Defined.

(** When [rand] returns values in [[0, RAND_MAX]], as the C library's does,
    the conversions [(double) rand()] in [initialize_scalar] (lines 46-48)
    and [initialize_array] (lines 32-37) are exact: the scalar is the drawn
    integer, and with at least one thread every cell [arr[i]], [0 <= i < n],
    holds an integer of [[0, RAND_MAX]] exactly. *)
Theorem rand_values_exact {S : Type} (rand : S -> Z * S) (arr n threads : Z)
    (m m' : mem) (s s' : S) (i : Z) :
  (forall s0, 0 <= fst (rand s0) <= RAND_MAX) ->
  1 <= threads ->
  initialize_array rand arr n threads (m, s) (m', s') ->
  0 <= i < n ->
  val (fst (initialize_scalar rand s)) = IZR (fst (rand s))
  /\ exists v, 0 <= v <= RAND_MAX /\ m' (arr + i) = of_int v /\ val (m' (arr + i)) = IZR v.
Proof.
  intros Hr Ht Hi Hin. split.
  - unfold initialize_scalar. pose proof (Hr s) as Hs. destruct (rand s) as [v s1].
    cbn [fst] in *. unfold RAND_MAX in Hs. exact (proj2 (of_int_approx v ltac:(lia))).
  - destruct (init_draws rand arr n threads m m' s s' Ht Hi) as (ord & Hp & Hm & _).
    assert (Ho : In i ord) by (apply (Permutation_in _ (Permutation_sym Hp)), in_zseq; lia).
    assert (Hv : In (m' (arr + i)) (map of_int (fst (draws rand (Z.to_nat n) s)))).
    { rewrite <- Hm. exact (in_map (fun i => m' (arr + i)) _ _ Ho). }
    apply in_map_iff in Hv as (v & Ev & Hv).
    pose proof (draws_bound rand _ _ _ Hr Hv) as Hb.
    exists v. split; [exact Hb|]. split; [now rewrite Ev|].
    rewrite <- Ev. unfold RAND_MAX in Hb. exact (proj2 (of_int_approx v ltac:(lia))).
Qed.

Lemma rand_values_exact_witness :
  (forall s0, 0 <= fst (sample_rand s0) <= RAND_MAX)
  /\ val (fst (initialize_scalar sample_rand 1)) = IZR (fst (sample_rand 1))
  /\ exists v, 0 <= v <= RAND_MAX
       /\ fst (run_init sample_rand 10 [0; 1; 2] ((fun _ : Z => of_int 0), 1)) (10 + 1) = of_int v
       /\ val (fst (run_init sample_rand 10 [0; 1; 2] ((fun _ : Z => of_int 0), 1)) (10 + 1)) = IZR v.
Proof.
  assert (Hr : forall s0, 0 <= fst (sample_rand s0) <= RAND_MAX).
  { intros s0. unfold sample_rand, RAND_MAX. cbv zeta. cbn [fst].
    pose proof (Z.mod_pos_bound ((s0 * 1103515245 + 12345) mod 2 ^ 32 / 65536) 32768
                  ltac:(lia)). lia. }
  assert (H : initialize_array sample_rand 10 3 2 ((fun _ : Z => of_int 0), 1)
       (fst (run_init sample_rand 10 [0; 1; 2] ((fun _ : Z => of_int 0), 1)),
        snd (run_init sample_rand 10 [0; 1; 2] ((fun _ : Z => of_int 0), 1)))).
  { exists [0; 1; 2]. split; [vm_compute; apply Permutation_refl | apply surjective_pairing]. }
  split; [exact Hr|].
  exact (rand_values_exact sample_rand 10 3 2 _ _ 1 _ 1 Hr ltac:(lia) H ltac:(lia)).
Defined.

(** [time_spent = (double) (end - begin) / CLOCKS_PER_SEC] (line 156): for
    a clock difference [0 <= end - begin < 2^53] it is the double nearest to
    [(end - begin) / 10^6], it is never negative, and a later [end] never
    gives a smaller processor time. *)
Theorem proc_time_nonneg_monotone (begin end1 end2 : Z) :
  begin <= end1 <= end2 -> end2 - begin < 2 ^ 53 ->
  approx (IZR (end1 - begin) / IZR CLOCKS_PER_SEC) (proc_time begin end1)
  /\ nonneg (proc_time begin end1) = true
  /\ (val (proc_time begin end1) <= val (proc_time begin end2))%R.
Proof.
  intros H1 H2. unfold proc_time, CLOCKS_PER_SEC.
  pose proof (div_1e6_approx (end1 - begin) ltac:(lia)) as A1.
  pose proof (div_1e6_approx (end2 - begin) ltac:(lia)) as A2.
  split; [exact A1|]. split; [exact (pos_or_zero_nonneg _ (approx_shape _ _ A1))|].
  apply (approx_mono _ _ _ _ A1 A2). unfold Rdiv.
  apply Rmult_le_compat_r; [left; apply Rinv_0_lt_compat; lra | apply IZR_le; lia].
Qed.

Lemma proc_time_nonneg_monotone_witness :
  (0 <= 1500 <= 2000000 /\ 2000000 - 0 < 2 ^ 53)
  /\ approx (IZR (1500 - 0) / IZR CLOCKS_PER_SEC) (proc_time 0 1500)
  /\ nonneg (proc_time 0 1500) = true
  /\ (val (proc_time 0 1500) <= val (proc_time 0 2000000))%R.
Proof.
  split; [lia|].
  exact (proc_time_nonneg_monotone 0 1500 2000000 ltac:(lia) ltac:(lia)).
Defined.

(** [ts_to_ms] (lines 20-22) is monotone on valid timestamps with fewer than
    [2^43] seconds: a later timestamp never converts to a smaller number of
    milliseconds. *)
Theorem ts_to_ms_monotone (t1 t2 : timespec) :
  valid_timespec t1 -> valid_timespec t2 ->
  0 <= tv_sec t1 < 2 ^ 43 -> 0 <= tv_sec t2 < 2 ^ 43 ->
  ts_le t1 t2 ->
  (val (ts_to_ms t1) <= val (ts_to_ms t2))%R.
Proof.
  destruct t1 as [s1 ns1], t2 as [s2 ns2].
  unfold valid_timespec, ts_le. cbn [tv_sec tv_nsec].
  intros H1 H2 H3 H4 H5. apply ms_val_mono; lia.
Qed.

Lemma ts_to_ms_monotone_witness :
  (val (ts_to_ms (mk_timespec 5 999999999)) <= val (ts_to_ms (mk_timespec 6 0)))%R.
Proof.
  apply ts_to_ms_monotone; unfold valid_timespec, ts_le; cbn [tv_sec tv_nsec]; lia.
Defined.

(** [ts_to_ms] (lines 20-22) is accurate: for a valid timestamp with fewer
    than [2^43] seconds, its result differs from the exact
    [1000 * tv_sec + tv_nsec / 10^6] by at most [2^-51] times that value
    (the product is exact; the quotient and the sum are each rounded once). *)
Theorem ts_to_ms_accuracy (ts : timespec) :
  valid_timespec ts -> 0 <= tv_sec ts < 2 ^ 43 ->
  (Rabs (val (ts_to_ms ts) - (1000 * IZR (tv_sec ts) + IZR (tv_nsec ts) / 1000000))
   <= (1000 * IZR (tv_sec ts) + IZR (tv_nsec ts) / 1000000) * p2 (-51))%R.
Proof.
  destruct ts as [s ns]. unfold valid_timespec. cbn [tv_sec tv_nsec]. intros Hns Hs.
  pose proof (ms_approx s ns Hs ltac:(lia)) as T.
  destruct (sec_ms_spec s Hs) as [_ VA].
  destruct (nsec_ms_spec ns ltac:(lia)) as [HB [VB0 _]].
  pose proof (approx_err _ _ T) as ET. pose proof (approx_err _ _ HB) as EB.
  rewrite VA, mult_IZR in ET.
  assert (Hb0 : (0 <= IZR ns / 1000000)%R)
    by (unfold Rdiv; apply Rmult_le_pos; [apply IZR_le; lia | lra]).
  assert (Hs0 : (0 <= IZR s)%R) by (apply IZR_le; lia).
  assert (Hu : (p2 (-53) = / 9007199254740992)%R).
  { apply (Rmult_eq_reg_r (p2 53)); [| pose proof (p2_pos 53); lra].
    rewrite <- p2_add. change (-53 + 53) with 0. rewrite p2_0, <- p2_IZR by lia.
    change (2 ^ 53) with 9007199254740992. field. }
  assert (Hu4 : p2 (-51) = (4 * p2 (-53))%R).
  { replace (-51) with (2 + -53) by lia. rewrite p2_add, <- p2_IZR by lia. reflexivity. }
  rewrite Hu4. rewrite Hu in *.
  apply Rabs_bounds in ET. apply Rabs_bounds in EB. apply Rabs_le.
  set (b := (IZR ns / 1000000)%R) in *. set (B := val (nsec_ms ns)) in *.
  set (T0 := val (ts_to_ms (mk_timespec s ns))) in *.
  lra.
Qed.

Lemma ts_to_ms_accuracy_witness :
  (Rabs (val (ts_to_ms (mk_timespec 1700000000 123456789))
         - (1000 * IZR 1700000000 + IZR 123456789 / 1000000))
   <= (1000 * IZR 1700000000 + IZR 123456789 / 1000000) * p2 (-51))%R.
Proof.
  apply (ts_to_ms_accuracy (mk_timespec 1700000000 123456789));
    unfold valid_timespec; cbn [tv_sec tv_nsec]; lia.
Defined.

(** For whole-second timestamps ([tv_nsec = 0]) with
    [0 <= start <= finish < 2^43] seconds, [wall_time] (lines 157-159 with
    [ts_to_ms], lines 20-22) is exact: [1000 * (finish - start)]. *)
Theorem wall_time_whole_seconds (s1 s2 : Z) :
  0 <= s1 <= s2 -> s2 < 2 ^ 43 ->
  val (wall_time (mk_timespec s1 0) (mk_timespec s2 0)) = IZR (1000 * (s2 - s1)).
Proof.
  intros H1 H2.
  destruct (ts_to_ms_whole s1 ltac:(lia)) as [P1 V1].
  destruct (ts_to_ms_whole s2 ltac:(lia)) as [P2 V2].
  unfold wall_time, dsub. cbv zeta. rewrite Z.mul_sub_distr_l.
  apply (sub_int_exact _ _ _ _ P2 P1 V2 V1); lia.
Qed.

Lemma wall_time_whole_seconds_witness :
  val (wall_time (mk_timespec 3 0) (mk_timespec 1000 0)) = IZR (1000 * (1000 - 3)).
Proof. apply wall_time_whole_seconds; lia. Defined.

(** Every pass of [main] that runs a trial (lines 133-163) allocates [x]
    and [y] once, runs one kernel and frees [x] and [y] once: over a
    session, for each buffer, the numbers of allocations, of releases and of
    kernel runs all equal the number of passes before the one reading [-1]
    (the passes read, if no [-1] came). *)
Theorem main_loop_counts (inp : list (Z * Z * Z)) (b : buffer) :
  count_ev (is_alloc b) (fst (main_loop inp)) = passes_run inp
  /\ count_ev (is_free b) (fst (main_loop inp)) = passes_run inp
  /\ count_ev is_kernel (fst (main_loop inp)) = passes_run inp.
Proof.
  induction inp as [|[[mode threads] n] rest IH]; [repeat split|].
  cbn [main_loop passes_run]. unfold count_ev in *. unfold trial_events.
  destruct (Z.eqb_spec n (-1)) as [->|Hn]; cbn [negb].
  - destruct b; repeat split; reflexivity.
  - destruct (main_loop rest) as [tr code]. cbn [fst] in *.
    destruct IH as (H1 & H2 & H3).
    rewrite !filter_app, !length_app.
    destruct b; cbn [filter is_alloc is_free is_kernel app length]; lia.
Qed.

(** [main] (lines 126-169) leaves its loop, prints [Goodbye!] and returns
    [0] exactly when some pass reads [-1] as the vector length: then the
    farewell line is the last thing it does and appears nowhere before; when
    no pass of the input reads [-1], [main] has not returned and has printed
    no farewell line. *)
Theorem main_loop_goodbye (inp : list (Z * Z * Z)) :
  snd (main_loop inp) = (if has_sentinel inp then Some 0 else None)
  /\ (In EvGoodbye (fst (main_loop inp)) <-> has_sentinel inp = true)
  /\ (has_sentinel inp = true ->
      exists pre, fst (main_loop inp) = pre ++ [EvGoodbye] /\ ~ In EvGoodbye pre).
Proof.
  unfold has_sentinel.
  induction inp as [|[[mode threads] n] rest IH].
  { cbn. split; [reflexivity|]. split; [split; [intros [] | discriminate] | discriminate]. }
  assert (Ht : ~ In EvGoodbye (trial_events mode threads n)).
  { unfold trial_events. destruct (negb (n =? -1)); cbn; intuition discriminate. }
  cbn [main_loop existsb]. destruct (Z.eqb_spec n (-1)) as [->|Hn]; cbn [negb orb].
  - cbn [fst snd]. split; [reflexivity|]. split.
    + split; [reflexivity|]. intros _. apply in_or_app. right. now left.
    + intros _. exists (trial_events mode threads (-1)). split; [reflexivity | exact Ht].
  - destruct (main_loop rest) as [tr code]. cbn [fst snd] in *.
    destruct IH as (Hc & Hin & Hpre). split; [exact Hc|]. split.
    + rewrite in_app_iff, <- Hin. tauto.
    + intros Hs. destruct (Hpre Hs) as (pre & Htr & Hp).
      exists (trial_events mode threads n ++ pre). rewrite Htr, app_assoc.
      split; [reflexivity|]. rewrite in_app_iff. tauto.
Qed.

Lemma main_loop_goodbye_witness :
  has_sentinel [(0, 2, 5); (1, 2, -1); (0, 1, 7)] = true
  /\ exists pre, fst (main_loop [(0, 2, 5); (1, 2, -1); (0, 1, 7)]) = pre ++ [EvGoodbye]
                 /\ ~ In EvGoodbye pre.
Proof.
  assert (Hs : has_sentinel [(0, 2, 5); (1, 2, -1); (0, 1, 7)] = true) by reflexivity.
  split; [exact Hs|].
  exact (proj2 (proj2 (main_loop_goodbye [(0, 2, 5); (1, 2, -1); (0, 1, 7)])) Hs).
Defined.

(** One pass of [main] with [n != -1] (lines 134-150), with at least one
    thread and separate blocks [x] and [y]: [rand] is called [1 + 2n] times
    (the scalar first, then [n] values for [x], then [n] for [y]); no cell
    outside [x[0..n)] and [y[0..n)] changes; [x] holds its [n] drawn values,
    and each [y[i]] ends as its drawn value plus [x[i] * a], whichever
    kernel the mode selects and in whatever order the threads ran. *)
Theorem trial_compute_result {S : Type} (rand : S -> Z * S) (x y mode n threads : Z)
    (m m' : mem) (s s' : S) :
  1 <= threads -> x + n <= y \/ y + n <= x ->
  trial_compute rand x y mode n threads (m, s) (m', s') ->
  s' = snd (draws rand (1 + 2 * Z.to_nat n) s)
  /\ (forall b, ~ (x <= b < x + n) -> ~ (y <= b < y + n) -> m' b = m b)
  /\ exists a0 xs ys ox oy,
       fst (draws rand (1 + 2 * Z.to_nat n) s) = a0 :: xs ++ ys
       /\ length xs = Z.to_nat n
       /\ Permutation ox (zseq 0 n) /\ Permutation oy (zseq 0 n)
       /\ map (fun i => m' (x + i)) ox = map of_int xs
       /\ map (fun i => m' (y + i)) oy
          = map (fun '(i, w) => dadd (of_int w) (dmul (m' (x + i)) (of_int a0)))
                (combine oy ys).
Proof.
  intros Ht Hsep Htc. unfold trial_compute, initialize_scalar in Htc.
  destruct (rand s) as [a0 s1] eqn:Er.
  destruct Htc as ([m1 s1'] & [m2 s2] & m3 & Hx & Hy & Hk & Heq).
  cbn [fst snd] in Hk, Heq. injection Heq as -> ->.
  destruct (init_draws rand x n threads m m1 s1 s1' Ht Hx) as (ox & Pox & Mx & Es1).
  destruct (init_draws rand y n threads m1 m2 s1' s2 Ht Hy) as (oy & Poy & My & Es2).
  assert (Hk' : forall b, m3 b = daxpy_result x y (of_int a0) n m2 b).
  { destruct (mode =? 0).
    - exact (calculate_daxpy_result x y (of_int a0) n threads m2 m3 Ht Hsep Hk).
    - exact (calculate_daxpy_dynamic_result x y (of_int a0) n threads m2 m3 Hsep Hk). }
  assert (Fx : forall b, ~ (x <= b < x + n) -> m1 b = m b)
    by exact (init_frame rand x n threads (m, s1) (m1, s1') Hx).
  assert (Fy : forall b, ~ (y <= b < y + n) -> m2 b = m1 b)
    by exact (init_frame rand y n threads (m1, s1') (m2, s2) Hy).
  assert (Kout : forall b, ~ (y <= b < y + n) -> m3 b = m2 b).
  { intros b Hb. rewrite Hk'. unfold daxpy_result.
    destruct (Z.leb_spec y b), (Z.ltb_spec b (y + n)); cbn; try reflexivity; lia. }
  assert (Kin : forall i, 0 <= i < n ->
            m3 (y + i) = dadd (m2 (y + i)) (dmul (m2 (x + i)) (of_int a0))).
  { intros i Hi. rewrite Hk'. unfold daxpy_result.
    destruct (Z.leb_spec y (y + i)); [|lia]. destruct (Z.ltb_spec (y + i) (y + n)); [|lia].
    cbn. replace (x + (y + i - y)) with (x + i) by lia. reflexivity. }
  assert (Xkeep : forall i, 0 <= i < n -> m3 (x + i) = m1 (x + i)).
  { intros i Hi. rewrite Kout by lia. apply Fy. lia. }
  assert (Rx : forall i, In i ox -> 0 <= i < n).
  { intros i Hi. apply (Permutation_in _ Pox), in_zseq in Hi. lia. }
  assert (Ry : forall i, In i oy -> 0 <= i < n).
  { intros i Hi. apply (Permutation_in _ Poy), in_zseq in Hi. lia. }
  set (N := Z.to_nat n) in *.
  destruct (draws rand N s1) as [xs sx] eqn:Dx.
  destruct (draws rand N sx) as [ys sy] eqn:Dy.
  cbn [fst snd] in Es1, Mx. subst s1'. rewrite Dy in Es2, My. cbn [fst snd] in Es2, My.
  assert (Ed : draws rand (1 + 2 * N) s = (a0 :: xs ++ ys, sy)).
  { replace (1 + 2 * N)%nat with (Datatypes.S (N + N)) by lia.
    cbn [draws]. rewrite Er, draws_add, Dx, Dy. reflexivity. }
  rewrite Ed. cbn [fst snd]. split; [exact Es2|]. split.
  - intros b Hbx Hby. rewrite Kout, Fy, Fx by assumption. reflexivity.
  - exists a0, xs, ys, ox, oy.
    split; [reflexivity|]. split.
    { apply (f_equal (@length _)) in Mx. rewrite !length_map in Mx.
      rewrite <- Mx, (Permutation_length Pox), zseq_length. reflexivity. }
    split; [exact Pox|]. split; [exact Poy|]. split.
    + rewrite <- Mx. apply map_ext_in. intros i Hi. apply Xkeep. auto.
    + transitivity (map (fun i => (fun i c => dadd c (dmul (m3 (x + i)) (of_int a0)))
                                    i (m2 (y + i))) oy).
      { apply map_ext_in. intros i Hi. pose proof (Ry i Hi).
        rewrite Kin, Xkeep, (Fy (x + i)) by lia. reflexivity. }
      exact (map_combine_values oy ys (fun i => m2 (y + i)) of_int
               (fun i c => dadd c (dmul (m3 (x + i)) (of_int a0))) My).
Qed.

Lemma trial_compute_result_witness :
  trial_compute sample_rand 0 10 0 2 2 ((fun _ : Z => of_int 0), 1)
    (run_daxpy 0 10 (of_int (fst (sample_rand 1))) [0; 1]
       (fst (run_init sample_rand 10 [0; 1]
               (run_init sample_rand 0 [0; 1] ((fun _ : Z => of_int 0), snd (sample_rand 1))))),
     snd (run_init sample_rand 10 [0; 1]
            (run_init sample_rand 0 [0; 1] ((fun _ : Z => of_int 0), snd (sample_rand 1)))))
  /\ snd (run_init sample_rand 10 [0; 1]
            (run_init sample_rand 0 [0; 1] ((fun _ : Z => of_int 0), snd (sample_rand 1))))
     = snd (draws sample_rand (1 + 2 * Z.to_nat 2) 1)
  /\ (forall b, ~ (0 <= b < 0 + 2) -> ~ (10 <= b < 10 + 2) ->
        run_daxpy 0 10 (of_int (fst (sample_rand 1))) [0; 1]
          (fst (run_init sample_rand 10 [0; 1]
                  (run_init sample_rand 0 [0; 1] ((fun _ : Z => of_int 0), snd (sample_rand 1))))) b
        = of_int 0).
Proof.
  assert (H : trial_compute sample_rand 0 10 0 2 2 ((fun _ : Z => of_int 0), 1)
    (run_daxpy 0 10 (of_int (fst (sample_rand 1))) [0; 1]
       (fst (run_init sample_rand 10 [0; 1]
               (run_init sample_rand 0 [0; 1] ((fun _ : Z => of_int 0), snd (sample_rand 1))))),
     snd (run_init sample_rand 10 [0; 1]
            (run_init sample_rand 0 [0; 1] ((fun _ : Z => of_int 0), snd (sample_rand 1)))))).
  { unfold trial_compute, initialize_scalar.
    change (sample_rand 1) with (16838, 1103527590). cbv beta iota zeta.
    exists (run_init sample_rand 0 [0; 1] ((fun _ : Z => of_int 0), 1103527590)).
    exists (run_init sample_rand 10 [0; 1]
              (run_init sample_rand 0 [0; 1] ((fun _ : Z => of_int 0), 1103527590))).
    eexists. split; [|split; [|split]].
    - exists [0; 1]. split; [vm_compute; apply Permutation_refl | reflexivity].
    - exists [0; 1]. split; [vm_compute; apply Permutation_refl | reflexivity].
    - cbn [Z.eqb]. exists [0; 1]. split; [vm_compute; apply Permutation_refl | reflexivity].
    - reflexivity. }
  destruct (trial_compute_result sample_rand 0 10 0 2 2 _ _ 1 _ ltac:(lia) ltac:(lia) H)
    as (Hs & Hf & _).
  split; [exact H|]. split; [exact Hs|].
  intros b Hx Hy. exact (Hf b Hx Hy).
Defined.
